(** * The .strings line parser of source_analysis.py

    A shallow embedding of [LocalizedString] (the line grammar, nine
    compiled regular expressions and their [parse_*] class methods) and of
    [LocalizedStringLineParser] (the state machine [parse_line]), followed
    by the properties of the parser.

    Text is a list of characters.  A line is any text: the doctests feed
    lines without a line break, [parse_file] feeds them with their final
    line feed. *)

From Stdlib Require Import String Ascii Bool Arith Lia List.
Import ListNotations.

Set Implicit Arguments.

(* ================================================================== *)
(** ** Text *)

Definition text := list ascii.

Definition str (s : string) : text := list_ascii_of_string s.

(** The double quote and the line feed. *)
Definition dq : ascii := "034"%char.
Definition lf : ascii := "010"%char.
Definition sp : ascii := " "%char.

Definition text_eq_dec : forall a b : text, {a = b} + {a <> b} :=
  list_eq_dec ascii_dec.

(** Python's [==] on values that are a text or [None]. *)
Definition py_eq (a b : option text) : bool :=
  match a, b with
  | Some x, Some y => if text_eq_dec x y then true else false
  | None, None => true
  | _, _ => false
  end.

(* ================================================================== *)
(** ** Regular expressions, as far as the source uses them

    Python's [re] is a backtracking matcher: alternatives are tried in
    priority order, greedy quantifiers try the longest repetition first,
    and the first complete match gives the groups.  Every quantifier of
    the source applies to a single-character item, so repetition is
    restricted to character sets. *)

Module Re.

(** Character sets.  The patterns are byte-string patterns compiled
    without flags: [\w] is [[a-zA-Z0-9_]], [\s] is [[ \t\n\r\f\v]] and
    [.] is anything but a line feed. *)
Inductive cset : Type :=
| CDot
| CWord
| CSpace
| CChar (c : ascii).

Definition between (lo hi n : nat) : bool := (lo <=? n) && (n <=? hi).

Definition in_cset (cs : cset) (c : ascii) : bool :=
  let n := nat_of_ascii c in
  match cs with
  | CDot => negb (Ascii.eqb c lf)
  | CWord => between 48 57 n || between 65 90 n || (n =? 95) || between 97 122 n
  | CSpace => between 9 13 n || (n =? 32)
  | CChar d => Ascii.eqb c d
  end.

(** Greedy quantifiers: [x?], [x*], [x+]. *)
Inductive quant : Type := Opt | Star | Plus.

Inductive re : Type :=
| Eps
| Bol                               (* ^ *)
| Eol                               (* $ *)
| Lit (s : text)                    (* literal characters *)
| Rep (q : quant) (cs : cset)       (* quantified character set *)
| Cat (r1 r2 : re)
| Grp (name : string) (r : re).     (* (?P<name>...) *)

Definition seq (rs : list re) : re := fold_right Cat Eps rs.

(** Groups captured so far, most recent first. *)
Definition captures := list (string * text).

Record mstate : Type := MState {
  pos : nat;          (* characters consumed since the start of the line *)
  rest : text;        (* what is left of the line *)
  caps : captures
}.

Fixpoint strip_prefix (s l : text) : option text :=
  match s, l with
  | [], _ => Some l
  | c :: s', d :: l' => if Ascii.eqb c d then strip_prefix s' l' else None
  | _ :: _, [] => None
  end.

Definition orelse {A} (a b : option A) : option A :=
  match a with
  | Some x => Some x
  | None => b
  end.

Section Matcher.
Variable A : Type.

(** Longest repetition first, one character given back at a time. *)
Fixpoint greedy (p : ascii -> bool) (k : nat -> text -> option A)
         (i : nat) (s : text) : option A :=
  match s with
  | c :: s' => if p c then orelse (greedy p k (S i) s') (k i s) else k i s
  | [] => k i s
  end.

(** [run r k st]: match [r] at [st], then the continuation [k]; the
    first success in backtracking order. *)
Fixpoint run (r : re) (k : mstate -> option A) (st : mstate) : option A :=
  match r with
  | Eps => k st
  | Bol => if pos st =? 0 then k st else None
  | Eol =>
      (* end of the text, or just before a line feed that ends it *)
      match rest st with
      | [] => k st
      | [c] => if Ascii.eqb c lf then k st else None
      | _ => None
      end
  | Lit s =>
      match strip_prefix s (rest st) with
      | Some l => k (MState (pos st + length s) l (caps st))
      | None => None
      end
  | Rep q cs =>
      let k' i s := k (MState i s (caps st)) in
      match q with
      | Star => greedy (in_cset cs) k' (pos st) (rest st)
      | Plus =>
          match rest st with
          | c :: s' =>
              if in_cset cs c
              then greedy (in_cset cs) k' (S (pos st)) s'
              else None
          | [] => None
          end
      | Opt =>
          match rest st with
          | c :: s' =>
              if in_cset cs c
              then orelse (k' (S (pos st)) s') (k st)
              else k st
          | [] => k st
          end
      end
  | Cat r1 r2 => run r1 (run r2 k) st
  | Grp name r =>
      run r (fun st' =>
               k (MState (pos st') (rest st')
                         ((name, firstn (pos st' - pos st) (rest st))
                            :: caps st'))) st
  end.
End Matcher.

(** [pattern.match(line)]: anchored at the start of the line. *)
Definition re_match (r : re) (line : text) : option captures :=
  run r (fun st => Some (caps st)) (MState 0 line []).

(** [result.group(name)] *)
Fixpoint group (m : captures) (name : string) : option text :=
  match m with
  | [] => None
  | (n, t) :: m' => if String.eqb n name then Some t else group m' name
  end.

(** *** The patterns read as relations

    [matches r a b]: some way of matching [r] leads from [a] to [b],
    whatever the order in which the matcher tries them.  [qok] bounds
    the number of repetitions of a quantifier. *)

Definition qok (q : quant) (n : nat) : Prop :=
  match q with
  | Opt => n <= 1
  | Star => True
  | Plus => 1 <= n
  end.

Definition all_in (cs : cset) (w : text) : Prop :=
  Forall (fun c => in_cset cs c = true) w.

Inductive matches : re -> mstate -> mstate -> Prop :=
| m_eps st : matches Eps st st
| m_bol s c : matches Bol (MState 0 s c) (MState 0 s c)
| m_eol p s c :
    s = [] \/ s = [lf] -> matches Eol (MState p s c) (MState p s c)
| m_lit t p s c :
    matches (Lit t) (MState p (t ++ s) c) (MState (p + length t) s c)
| m_rep q cs w p s c :
    all_in cs w -> qok q (length w) ->
    matches (Rep q cs) (MState p (w ++ s) c) (MState (p + length w) s c)
| m_cat r1 r2 a b d :
    matches r1 a b -> matches r2 b d -> matches (Cat r1 r2) a d
| m_grp n r p w s c c' :
    matches r (MState p (w ++ s) c) (MState (p + length w) s c') ->
    matches (Grp n r) (MState p (w ++ s) c)
            (MState (p + length w) s ((n, w) :: c')).

End Re.

Import Re.

(* ================================================================== *)
(** ** LocalizedString: the line grammar *)

Record LocalizedString : Type := mkLocalizedString {
  ls_key : option text;
  ls_value : option text;
  ls_comment : option text
}.

Definition COMMENT_EXPR : re :=
  seq [Bol; Rep Star CWord;
       Lit (str "/* "); Grp "comment" (Rep Plus CDot); Lit (str " */");
       Rep Star CWord; Eol].

Definition COMMENT_MULTILINE_START : re :=
  seq [Bol; Rep Star CWord;
       Lit (str "/* "); Grp "comment" (Rep Plus CDot);
       Rep Star CWord; Eol].

Definition COMMENT_MULTILINE_LINE : re :=
  seq [Bol; Grp "comment" (Rep Plus CDot); Eol].

Definition COMMENT_MULTILINE_END : re :=
  seq [Bol; Grp "comment" (Rep Plus CDot); Lit (str "*/");
       Rep Star CSpace; Eol].

Definition LOCALIZED_STRING_EXPR : re :=
  seq [Bol;
       Lit [dq]; Grp "key" (Rep Plus CDot); Lit [dq];
       Rep Opt (CChar sp); Lit (str "="); Rep Opt (CChar sp);
       Lit [dq]; Grp "value" (Rep Plus CDot); Lit [dq];
       Lit (str ";");
       Eol].

Definition LOCALIZED_STRING_MULTILINE_START_EXPR : re :=
  seq [Bol;
       Lit [dq]; Grp "key" (Rep Plus CDot); Lit [dq];
       Rep Opt (CChar sp); Lit (str "="); Rep Opt (CChar sp);
       Lit [dq]; Grp "value" (Rep Plus CDot);
       Eol].

Definition LOCALIZED_STRING_MULTILINE_LINE_EXPR : re :=
  seq [Bol; Grp "value" (Rep Plus CDot); Eol].

Definition LOCALIZED_STRING_MULTILINE_END_EXPR : re :=
  seq [Bol; Grp "value" (Rep Plus CDot); Lit [dq];
       Rep Opt (CChar sp); Lit (str ";"); Rep Opt (CChar sp);
       Eol].

Definition LOCALIZED_STRING_TRAILING_COMMENT_EXPR : re :=
  seq [Bol;
       Lit [dq]; Grp "key" (Rep Plus CDot); Lit [dq];
       Rep Opt (CChar sp); Lit (str "="); Rep Opt (CChar sp);
       Lit [dq]; Grp "value" (Rep Plus CDot); Lit [dq];
       Rep Opt (CChar sp); Lit (str ";"); Rep Opt (CChar sp);
       Lit (str "/* "); Grp "comment" (Rep Plus CDot); Lit (str " */");
       Eol].

Definition parse_multiline_start (line : text) : option text * option text :=
  match re_match LOCALIZED_STRING_MULTILINE_START_EXPR line with
  | Some result => (group result "key", group result "value")
  | None => (None, None)
  end.

Definition parse_multiline_line (line : text) : option text :=
  match re_match LOCALIZED_STRING_MULTILINE_LINE_EXPR line with
  | Some result => group result "value"
  | None => None
  end.

Definition parse_multiline_end (line : text) : option text :=
  match re_match LOCALIZED_STRING_MULTILINE_END_EXPR line with
  | Some result => group result "value"
  | None => None
  end.

Definition parse_trailing_comment (line : text)
  : option text * option text * option text :=
  match re_match LOCALIZED_STRING_TRAILING_COMMENT_EXPR line with
  | Some result =>
      (group result "key", group result "value", group result "comment")
  | None => (None, None, None)
  end.

Definition parse_multiline_comment_start (line : text) : option text :=
  match re_match COMMENT_MULTILINE_START line with
  | Some result => group result "comment"
  | None => None
  end.

Definition parse_multiline_comment_line (line : text) : option text :=
  match re_match COMMENT_MULTILINE_LINE line with
  | Some result => group result "comment"
  | None => None
  end.

Definition parse_multiline_comment_end (line : text) : option text :=
  match re_match COMMENT_MULTILINE_END line with
  | Some result => group result "comment"
  | None => None
  end.

Definition parse_comment (line : text) : option text :=
  match re_match COMMENT_EXPR line with
  | Some result => group result "comment"
  | None => None
  end.

Definition parse_localized_pair (line : text) : option text * option text :=
  match re_match LOCALIZED_STRING_EXPR line with
  | Some result => (group result "key", group result "value")
  | None => (None, None)
  end.

Definition is_raw (s : LocalizedString) : bool :=
  py_eq (ls_value s) (ls_key s).

(* ================================================================== *)
(** ** LocalizedStringLineParser: the state machine *)

(** [ParseStates], in the order of their numbers 1 to 5. *)
Inductive ParseStates : Type :=
| COMMENT
| STRING
| TRAILING_COMMENT
| STRING_MULTILINE
| COMMENT_MULTILINE.

(** What a Python expression of [parse_line] can raise: reading an
    attribute that was never assigned, and [None + str]. *)
Inductive exn : Type := AttributeError | TypeError.

Inductive result (A : Type) : Type :=
| Ok (a : A)
| Raise (e : exn).
Arguments Ok {A} a.
Arguments Raise {A} e.

Definition bind {A B} (m : result A) (f : A -> result B) : result B :=
  match m with
  | Ok a => f a
  | Raise e => Raise e
  end.

Notation "x <- m ;; f" := (bind m (fun x => f))
  (at level 61, m at next level, right associativity).

(** The parser object.  [__init__] assigns [parse_state], [key], [value]
    and [comment]; [comment_partial] and [value_partial] exist only once
    [parse_line] has assigned them, so they carry one more [option]:
    [None] is the missing attribute, [Some None] is Python's [None]. *)
Record LocalizedStringLineParser : Type := mkParser {
  parse_state : ParseStates;
  key : option text;
  value : option text;
  comment : option text;
  comment_partial : option (option text);
  value_partial : option (option text)
}.

Definition init : LocalizedStringLineParser :=
  mkParser COMMENT None None None None None.

Definition set_parse_state s (p : LocalizedStringLineParser) :=
  mkParser s (key p) (value p) (comment p) (comment_partial p) (value_partial p).
Definition set_key k (p : LocalizedStringLineParser) :=
  mkParser (parse_state p) k (value p) (comment p) (comment_partial p) (value_partial p).
Definition set_value v (p : LocalizedStringLineParser) :=
  mkParser (parse_state p) (key p) v (comment p) (comment_partial p) (value_partial p).
Definition set_comment c (p : LocalizedStringLineParser) :=
  mkParser (parse_state p) (key p) (value p) c (comment_partial p) (value_partial p).
Definition set_comment_partial c (p : LocalizedStringLineParser) :=
  mkParser (parse_state p) (key p) (value p) (comment p) (Some c) (value_partial p).
Definition set_value_partial v (p : LocalizedStringLineParser) :=
  mkParser (parse_state p) (key p) (value p) (comment p) (comment_partial p) (Some v).

(** [partial + '\n' + fragment], with [partial] read from the object. *)
Definition join_partial (partial : option (option text)) (fragment : text)
  : result text :=
  match partial with
  | None => Raise AttributeError
  | Some None => Raise TypeError
  | Some (Some t) => Ok (t ++ [lf] ++ fragment)
  end.

Definition build_localizedString (self : LocalizedStringLineParser)
  : LocalizedStringLineParser * option LocalizedString :=
  let localizedString :=
    mkLocalizedString (key self) (value self) (comment self) in
  (set_comment None (set_value None (set_key None self)),
   Some localizedString).

(** One call of [parse_line]: the parser afterwards and what is returned
    ([None] when nothing is), or the exception. *)
Definition parse_line (self : LocalizedStringLineParser) (line : text)
  : result (LocalizedStringLineParser * option LocalizedString) :=
  match parse_state self with
  | COMMENT =>
      let '(k, v, c) := parse_trailing_comment line in
      let self := set_comment c (set_value v (set_key k self)) in
      match key self, value self, comment self with
      | Some _, Some _, Some _ => Ok (build_localizedString self)
      | _, _, _ =>
          let self := set_comment (parse_comment line) self in
          match comment self with
          | Some _ => Ok (set_parse_state STRING self, None)
          | None =>
              (* Maybe its a multiline comment *)
              let self :=
                set_comment_partial (parse_multiline_comment_start line) self in
              match parse_multiline_comment_start line with
              | Some _ => Ok (set_parse_state COMMENT_MULTILINE self, None)
              | None => Ok (self, None)
              end
          end
      end
  | COMMENT_MULTILINE =>
      match parse_multiline_comment_end line with
      | Some comment_end =>
          c <- join_partial (comment_partial self) comment_end ;;
          let self := set_comment (Some c) self in
          let self := set_comment_partial None self in
          Ok (set_parse_state STRING self, None)
      | None =>
          (* Or its just an intermediate line *)
          match parse_multiline_comment_line line with
          | Some comment_line =>
              c <- join_partial (comment_partial self) comment_line ;;
              Ok (set_comment_partial (Some c) self, None)
          | None => Ok (self, None)
          end
      end
  | TRAILING_COMMENT =>
      let self := set_comment (parse_comment line) self in
      match comment self with
      | Some _ => Ok (build_localizedString (set_parse_state COMMENT self))
      | None => Ok (self, None)
      end
  | STRING =>
      let '(k, v) := parse_localized_pair line in
      let self := set_value v (set_key k self) in
      match key self, value self with
      | Some _, Some _ =>
          Ok (build_localizedString (set_parse_state COMMENT self))
      | _, _ =>
          (* Otherwise, try if the Value is multi-line *)
          let '(k, vp) := parse_multiline_start line in
          let self := set_value_partial vp (set_key k self) in
          match k, vp with
          | Some _, Some _ =>
              Ok (set_value None (set_parse_state STRING_MULTILINE self), None)
          | _, _ => Ok (self, None)
          end
      end
  | STRING_MULTILINE =>
      match parse_multiline_end line with
      | Some value_part =>
          v <- join_partial (value_partial self) value_part ;;
          let self := set_value (Some v) self in
          let self := set_value_partial None self in
          Ok (build_localizedString (set_parse_state COMMENT self))
      | None =>
          match parse_multiline_line line with
          | Some value_part =>
              v <- join_partial (value_partial self) value_part ;;
              Ok (set_value_partial (Some v) self, None)
          | None => Ok (self, None)
          end
      end
  end.

(** [parse_line] called on each line in turn, on the same parser: the
    parser afterwards and what each call returned. *)
Fixpoint calls (parser : LocalizedStringLineParser) (lines : list text)
  : result (LocalizedStringLineParser * list (option LocalizedString)) :=
  match lines with
  | [] => Ok (parser, [])
  | line :: lines' =>
      r <- parse_line parser line ;;
      rs <- calls (fst r) lines' ;;
      Ok (fst rs, snd r :: snd rs)
  end.

(** The dictionary of [parse_file]; [localized_strings[key] = value]
    replaces the value of a key that is there. *)
Definition dict := list (option text * option text).

Fixpoint dict_set (d : dict) (k : option text) (v : option text) : dict :=
  match d with
  | [] => [(k, v)]
  | (k', v') :: d' =>
      if py_eq k' k
      then (k, v) :: d'
      else (k', v') :: dict_set d' k v
  end.

(** The loop of [parse_file] over the lines of the file, which come
    with their line feed.  Nothing happens after the last line. *)
Fixpoint parse_file_loop (parser : LocalizedStringLineParser)
         (localized_strings : dict) (lines : list text) : result dict :=
  match lines with
  | [] => Ok localized_strings
  | line :: lines' =>
      r <- parse_line parser line ;;
      match snd r with
      | Some localized_string =>
          parse_file_loop (fst r)
            (dict_set localized_strings
                      (ls_key localized_string) (ls_value localized_string))
            lines'
      | None => parse_file_loop (fst r) localized_strings lines'
      end
  end.

Definition parse_file (lines : list text) : result dict :=
  parse_file_loop init [] lines.

(* ================================================================== *)
(** ** The shapes of lines the grammar is written for

    In the comments below a quote stands for the double quote [dq]. *)

(** Full entry: [K] in quotes, [ = ], [V] in quotes, a semicolon. *)
Definition entry_line (K V : text) : text :=
  [dq] ++ K ++ [dq] ++ str " = " ++ [dq] ++ V ++ [dq] ++ str ";".

(** Full entry with its comment [/* C */] behind it on the same line. *)
Definition entry_comment_line (K V C : text) : text :=
  [dq] ++ K ++ [dq] ++ str " = " ++ [dq] ++ V ++ [dq] ++
  str "; /* " ++ C ++ str " */".

(** Single-line comment [/* C */]. *)
Definition comment_line (C : text) : text := str "/* " ++ C ++ str " */".

(** First line [/* L] of a comment that is left open. *)
Definition comment_start_line (L : text) : text := str "/* " ++ L.

(** Last line [L*/] of a comment. *)
Definition comment_end_line (L : text) : text := L ++ str "*/".

(** First line of an entry whose value is left open: [K] in quotes,
    [ = ], a quote, [V]. *)
Definition value_start_line (K V : text) : text :=
  [dq] ++ K ++ [dq] ++ str " = " ++ [dq] ++ V.

(** Last line of a value: [V], a quote, a semicolon. *)
Definition value_end_line (V : text) : text := V ++ [dq] ++ str ";".

(* ================================================================== *)
(** ** Well-formed fragments *)

(** [lacks c t]: the character [c] does not occur in [t]. *)
Definition lacks (c : ascii) (t : text) : bool :=
  forallb (fun x => negb (Ascii.eqb x c)) t.

Definition nonempty (t : text) : bool :=
  match t with
  | [] => false
  | _ :: _ => true
  end.

(** A comment text: not empty and on one line. *)
Definition oneline (t : text) : bool := nonempty t && lacks lf t.

(** A key, a value or a piece of one: not empty, on one line and without
    a double quote (the grammar does not know escaped quotes). *)
Definition plain (t : text) : bool :=
  nonempty t && lacks dq t && lacks lf t.

Definition begins_with (c : ascii) (line : text) : bool :=
  match line with
  | [] => false
  | x :: _ => Ascii.eqb x c
  end.

(** [closes t]: the two characters that close a comment occur in [t]. *)
Fixpoint closes (t : text) : bool :=
  match t with
  | [] => false
  | c :: t' =>
      match t' with
      | d :: _ =>
          (Ascii.eqb c "*"%char && Ascii.eqb d "/"%char) || closes t'
      | [] => false
      end
  end.

(** Occurrences of [c] in [t]. *)
Fixpoint count (c : ascii) (t : text) : nat :=
  match t with
  | [] => 0
  | x :: t' => (if Ascii.eqb x c then 1 else 0) + count c t'
  end.

(** The line without the line feed that ends it, if one does. *)
Fixpoint chomp (t : text) : text :=
  match t with
  | [] => []
  | c :: t' =>
      match t' with
      | [] => if Ascii.eqb c lf then [] else [c]
      | _ :: _ => c :: chomp t'
      end
  end.

(* ================================================================== *)
(** ** The parsers that occur

    What holds of a parser whenever [parse_line] is entered, from
    [__init__] on: a partial text is there in the state that adds to it,
    and [TRAILING_COMMENT] is no state the parser is ever put in (no
    assignment to [parse_state] has it on its right). *)

Definition is_text (a : option (option text)) : Prop :=
  exists t, a = Some (Some t).

Definition sane (p : LocalizedStringLineParser) : Prop :=
  match parse_state p with
  | COMMENT => True
  | STRING => True
  | TRAILING_COMMENT => False
  | STRING_MULTILINE => is_text (value_partial p) /\ key p <> None
  | COMMENT_MULTILINE => is_text (comment_partial p)
  end.

(** An entry with its key and its value. *)
Definition resolved (e : LocalizedString) : Prop :=
  ls_key e <> None /\ ls_value e <> None.

(** The entries among what the calls returned. *)
Fixpoint entries (rs : list (option LocalizedString)) : list LocalizedString :=
  match rs with
  | [] => []
  | Some e :: rs' => e :: entries rs'
  | None :: rs' => entries rs'
  end.

(* ================================================================== *)
(** ** LocalizedString: equality and printing *)

(** [__eq__] on two entries. *)
Definition LocalizedString_eq (self other : LocalizedString) : bool :=
  py_eq (ls_key self) (ls_key other) &&
  py_eq (ls_value self) (ls_value other) &&
  py_eq (ls_comment self) (ls_comment other).

(** [__neq__]: [not result]. *)
Definition LocalizedString_neq (self other : LocalizedString) : bool :=
  negb (LocalizedString_eq self other).

(** The truth value of a text or [None]: neither [None] nor empty. *)
Definition truthy (t : option text) : bool :=
  match t with
  | Some (_ :: _) => true
  | _ => false
  end.

(** [t or ''] *)
Definition or_empty (t : option text) : text :=
  match t with
  | Some t' => t'
  | None => []
  end.

(** [__str__]: the comment line, if there is a comment, and the entry
    line, each with its line feed. *)
Definition LocalizedString_str (self : LocalizedString) : text :=
  if truthy (ls_comment self)
  then str "/* " ++ or_empty (ls_comment self) ++ str " */" ++ [lf] ++
       [dq] ++ or_empty (ls_key self) ++ [dq] ++ str " = " ++
       [dq] ++ or_empty (ls_value self) ++ [dq] ++ str ";" ++ [lf]
  else [dq] ++ or_empty (ls_key self) ++ [dq] ++ str " = " ++
       [dq] ++ or_empty (ls_value self) ++ [dq] ++ str ";" ++ [lf].

(* ================================================================== *)
(** ** The file around the parser *)

(** The lines of a text as the iteration over an open file gives them:
    each with the line feed that ends it, the last one without if the
    text does not end in one. *)
Fixpoint file_lines (contents : text) : list text :=
  match contents with
  | [] => []
  | c :: contents' =>
      if Ascii.eqb c lf
      then [c] :: file_lines contents'
      else match file_lines contents' with
           | [] => [[c]]
           | line :: lines => (c :: line) :: lines
           end
  end.

(** [localized_strings.get(key)] *)
Fixpoint dict_get (d : dict) (k : option text) : option (option text) :=
  match d with
  | [] => None
  | (k', v) :: d' => if py_eq k' k then Some v else dict_get d' k
  end.

(** [ENCODINGS] *)
Definition ENCODINGS : list string :=
  ["utf-8"; "utf-16"; "utf-16-le"; "utf-16-be"]%string.

(** [try_encoding] and [read_file_encoding].  Whether the whole file
    decodes under an encoding is the business of [io.open(...).read()]:
    [decodes] says so for the file at hand.  [None] is the [False] that
    both functions return. *)
Section Encoding.
Variable decodes : string -> bool.

Definition try_encoding (encoding : string) : option string :=
  if decodes encoding then Some encoding else None.

Fixpoint first_encoding (encodings : list string) : option string :=
  match encodings with
  | [] => None
  | encoding :: encodings' =>
      match try_encoding encoding with
      | Some enc =>
          (* [if enc:], an encoding with a name *)
          match enc with
          | EmptyString => first_encoding encodings'
          | String _ _ => Some enc
          end
      | None => first_encoding encodings'
      end
  end.

Definition read_file_encoding : option string := first_encoding ENCODINGS.

End Encoding.

(* ================================================================== *)
(** ** find_sources

    The directories come from [os.walk(folder_path)]: [walk] is what it
    yields, the path of each directory with the names of its files. *)

(** [p in s] on texts. *)
Fixpoint is_prefix (p s : text) : bool :=
  match p, s with
  | [], _ => true
  | c :: p', d :: s' => Ascii.eqb c d && is_prefix p' s'
  | _ :: _, [] => false
  end.

Fixpoint contains (p s : text) : bool :=
  match s with
  | [] => is_prefix p []
  | _ :: s' => is_prefix p s || contains p s'
  end.

(** [s.rpartition(c)[2]]: what follows the last [c], or all of [s] when
    there is no [c]. *)
Fixpoint rpartition_tail (c : ascii) (s : text) : text :=
  match s with
  | [] => []
  | x :: s' =>
      if lacks c s'
      then if Ascii.eqb x c then s' else s
      else rpartition_tail c s'
  end.

Definition ends_with (c : ascii) (s : text) : bool :=
  match rev s with
  | [] => false
  | x :: _ => Ascii.eqb x c
  end.

(** [os.path.join(a, b)] of [posixpath]. *)
Definition path_join (a b : text) : text :=
  if begins_with "/"%char b then b
  else if negb (nonempty a) || ends_with "/"%char a then a ++ b
  else a ++ str "/" ++ b.

(** [extension in extensions] *)
Definition member (t : text) (ts : list text) : bool :=
  existsb (fun u => if text_eq_dec t u then true else false) ts.

(** The loop over the ignore patterns. *)
Fixpoint ignore_loop (ignore_patterns : list text) (dir_path : text)
         (ignorePath : bool) : bool :=
  match ignore_patterns with
  | [] => ignorePath
  | ignore_pattern :: rest =>
      if contains ignore_pattern dir_path
      then ignore_loop rest dir_path true
      else ignore_loop rest dir_path ignorePath
  end.

(** The loop over the files of a directory. *)
Fixpoint files_loop (extensions : list text) (dir_path : text)
         (file_names : list text) (code_file_paths : list text) : list text :=
  match file_names with
  | [] => code_file_paths
  | file_name :: rest =>
      let extension := rpartition_tail "."%char file_name in
      if member extension extensions
      then files_loop extensions dir_path rest
                      (code_file_paths ++ [path_join dir_path file_name])
      else files_loop extensions dir_path rest code_file_paths
  end.

(** The loop over the directories. *)
Fixpoint walk_loop (extensions : list text)
         (ignore_patterns : option (list text))
         (walk : list (text * list text)) (code_file_paths : list text)
  : list text :=
  match walk with
  | [] => code_file_paths
  | (dir_path, file_names) :: walk' =>
      let ignorePath :=
        match ignore_patterns with
        | Some patterns => ignore_loop patterns dir_path false
        | None => false
        end in
      if ignorePath
      then walk_loop extensions ignore_patterns walk' code_file_paths
      else walk_loop extensions ignore_patterns walk'
                     (files_loop extensions dir_path file_names
                                 code_file_paths)
  end.

Definition find_sources (walk : list (text * list text))
           (extensions : option (list text))
           (ignore_patterns : option (list text)) : list text :=
  let extensions :=
    match extensions with
    | None => [str "c"; str "m"; str "mm"]
    | Some e => e
    end in
  walk_loop extensions ignore_patterns walk [].

From Stdlib Require Import DecimalString.

(* ================================================================== *)
(** ** find_strings_in_ib_file

    The interface files are read by [xml.etree.ElementTree]; an element
    has a tag, attributes, the text before its first child, and
    children. *)

#[local] Unset Elimination Schemes.
Inductive element : Type :=
| Element (tag : text) (attrib : list (text * text)) (etext : option text)
          (children : list element).
#[local] Set Elimination Schemes.

Definition tag_of (e : element) : text :=
  match e with Element t _ _ _ => t end.
Definition attrib_of (e : element) : list (text * text) :=
  match e with Element _ a _ _ => a end.
Definition text_of (e : element) : option text :=
  match e with Element _ _ t _ => t end.
Definition children_of (e : element) : list element :=
  match e with Element _ _ _ c => c end.

Definition text_eqb (a b : text) : bool :=
  if text_eq_dec a b then true else false.

(** [e.get(name)]: the attribute, or [None]. *)
Fixpoint lookup (a : list (text * text)) (name : text) : option text :=
  match a with
  | [] => None
  | (n, v) :: a' => if text_eqb n name then Some v else lookup a' name
  end.

Definition get (e : element) (name : string) : option text :=
  lookup (attrib_of e) (str name).

(** The element and all the elements below it, in document order. *)
Fixpoint iter_all (e : element) : list element :=
  match e with
  | Element _ _ _ children => e :: flat_map iter_all children
  end.

(** [node.iter(tag)] *)
Definition iter (node : element) (tag : string) : list element :=
  filter (fun e => text_eqb (tag_of e) (str tag)) (iter_all node).

(** [e.findall(tag)]: the children with the tag. *)
Definition findall (e : element) (tag : string) : list element :=
  filter (fun c => text_eqb (tag_of c) (str tag)) (children_of e).

(** [e.find(tag)]: the first of them, or [None]. *)
Definition find (e : element) (tag : string) : option element :=
  hd_error (findall e tag).

(** A [string_item]: the dictionary with the keys key, value and
    file. *)
Record string_item : Type := mkItem {
  item_key : text;
  item_value : option text;
  item_file : text
}.

(** [a + b] where [a] comes from [get] and may be [None]. *)
Definition add_to_attr (a : option text) (b : text) : result text :=
  match a with
  | Some x => Ok (x ++ b)
  | None => Raise TypeError
  end.

(** [a + b] where [b] comes from [get] and may be [None]. *)
Definition add_attr (a : text) (b : option text) : result text :=
  match b with
  | Some x => Ok (a ++ x)
  | None => Raise TypeError
  end.

(** The decimal digits of a number, as the backquotes give them. *)
Definition repr_nat (n : nat) : text :=
  list_ascii_of_string (NilEmpty.string_of_uint (Nat.to_uint n)).

(** A [for] loop whose body may append to [out_items] and may raise. *)
Fixpoint for_each {A : Type} (xs : list A)
         (body : A -> list string_item -> result (list string_item))
         (out_items : list string_item) : result (list string_item) :=
  match xs with
  | [] => Ok out_items
  | x :: xs' =>
      out <- body x out_items ;;
      for_each xs' body out
  end.

(** [value = e.get(name); if value: key = e.get('id') + suffix; ...]
    with the item's value given apart: the attribute itself everywhere
    but for the placeholder of a text field. *)
Definition attr_item (filename : text) (e : element) (name : string)
           (suffix : string) (value : option text)
           (out_items : list string_item) : result (list string_item) :=
  if truthy (get e name)
  then key <- add_to_attr (get e "id") (str suffix) ;;
       Ok (out_items ++ [mkItem key value filename])
  else Ok out_items.

Definition button_body (filename : text) (button : element)
           (out_items : list string_item) : result (list string_item) :=
  for_each (findall button "state")
    (fun state out_items =>
       let title := get state "title" in
       if truthy title
       then k1 <- add_to_attr (get button "id") (str ".") ;;
            k2 <- add_attr k1 (get state "key") ;;
            Ok (out_items ++ [mkItem (k2 ++ str "Title") title filename])
       else Ok out_items)
    out_items.

Definition label_body (filename : text) (label : element)
           (out_items : list string_item) : result (list string_item) :=
  attr_item filename label "text" ".text" (get label "text") out_items.

Definition text_field_body (filename : text) (text_field : element)
           (out_items : list string_item) : result (list string_item) :=
  let text := get text_field "text" in
  out <- attr_item filename text_field "text" ".text" text out_items ;;
  attr_item filename text_field "placeholder" ".placeholder" text out.

Definition segmented_control_body (filename : text)
           (segmented_control : element)
           (out_items : list string_item) : result (list string_item) :=
  match find segmented_control "segments" with
  | None => Raise TypeError          (* len(None) *)
  | Some segments =>
      for_each (combine (List.seq 0 (length (children_of segments)))
                        (children_of segments))
        (fun indexed out_items =>
           let '(index, segment) := indexed in
           k1 <- add_to_attr (get segmented_control "id")
                             (str ".segmentTitles[") ;;
           let key := k1 ++ repr_nat index ++ str "]" in
           Ok (out_items ++ [mkItem key (get segment "title") filename]))
        out_items
  end.

Definition text_view_body (filename : text) (text_view : element)
           (out_items : list string_item) : result (list string_item) :=
  match find text_view "string" with
  | None => Raise AttributeError     (* None.text *)
  | Some string_element =>
      if truthy (text_of string_element)
      then key <- add_to_attr (get text_view "id") (str ".text") ;;
           Ok (out_items ++ [mkItem key (text_of string_element) filename])
      else Ok out_items
  end.

Definition search_bar_body (filename : text) (search_bar : element)
           (out_items : list string_item) : result (list string_item) :=
  out <- attr_item filename search_bar "text" ".text"
                   (get search_bar "text") out_items ;;
  out <- attr_item filename search_bar "placeholder" ".placeholder"
                   (get search_bar "placeholder") out ;;
  attr_item filename search_bar "prompt" ".prompt"
            (get search_bar "prompt") out.

Definition title_body (filename : text) (e : element)
           (out_items : list string_item) : result (list string_item) :=
  attr_item filename e "title" ".title" (get e "title") out_items.

Definition find_strings_in_ib_file (node : element) (filename : text)
           (out_items : list string_item) : result (list string_item) :=
  out <- for_each (iter node "button") (button_body filename) out_items ;;
  out <- for_each (iter node "label") (label_body filename) out ;;
  out <- for_each (iter node "textField") (text_field_body filename) out ;;
  out <- for_each (iter node "segmentedControl")
                  (segmented_control_body filename) out ;;
  out <- for_each (iter node "textView") (text_view_body filename) out ;;
  out <- for_each (iter node "searchBar") (search_bar_body filename) out ;;
  out <- for_each (iter node "barButtonItem") (title_body filename) out ;;
  out <- for_each (iter node "tabBarItem") (title_body filename) out ;;
  out <- for_each (iter node "navigationItem") (title_body filename) out ;;
  for_each (iter node "barButtonItem") (title_body filename) out.

(* ================================================================== *)
(** ** What the properties below speak of *)

(** A field that a [parse_*] function returns: [None], or a text that
    is not empty and has no line feed. *)
Definition field_ok (o : option text) : Prop :=
  match o with
  | Some t => oneline t = true
  | None => True
  end.

(** Every group of the pattern is one or more characters of a line. *)
Fixpoint groups_of_a_line (r : re) : bool :=
  match r with
  | Grp _ (Rep Plus CDot) => true
  | Grp _ _ => false
  | Cat r1 r2 => groups_of_a_line r1 && groups_of_a_line r2
  | _ => true
  end.

(** A text that is there and is not empty. *)
Definition filled (o : option text) : Prop :=
  exists t, o = Some t /\ t <> [].

(** What holds of the parser besides [sane]: in the states that follow
    a comment the comment is stored, and the key and the pieces of
    texts are not empty. *)
Definition full (p : LocalizedStringLineParser) : Prop :=
  match parse_state p with
  | COMMENT => True
  | STRING => filled (comment p)
  | TRAILING_COMMENT => False
  | STRING_MULTILINE =>
      filled (comment p) /\
      (exists k, key p = Some k /\ oneline k = true) /\
      (exists t, value_partial p = Some (Some t) /\ t <> [])
  | COMMENT_MULTILINE =>
      exists t, comment_partial p = Some (Some t) /\ t <> []
  end.

(** An entry with a key on one line, a value and a comment. *)
Definition complete (e : LocalizedString) : Prop :=
  (exists k, ls_key e = Some k /\ oneline k = true) /\
  filled (ls_value e) /\ filled (ls_comment e).

(** The texts joined with line feeds. *)
Fixpoint join_lf (ts : list text) : text :=
  match ts with
  | [] => []
  | t :: ts' =>
      match ts' with
      | [] => t
      | _ :: _ => t ++ [lf] ++ join_lf ts'
      end
  end.

(** An entry that [__str__] prints on two lines the grammar reads. *)
Definition printable (e : LocalizedString) : bool :=
  match ls_key e, ls_value e, ls_comment e with
  | Some k, Some v, Some c => plain k && plain v && oneline c
  | _, _, _ => false
  end.

(** The value of the last entry with the key [k]. *)
Definition last_value (k : option text) (es : list LocalizedString)
  : option (option text) :=
  fold_left (fun found e => if py_eq (ls_key e) k
                            then Some (ls_value e) else found)
            es None.

(** The answers [None] of as many calls as there are lines. *)
Definition nones (lines : list text) : list (option LocalizedString) :=
  map (fun _ => None) lines.

(** One loop of [find_strings_in_ib_file], from the items so far to
    the items after it. *)
Definition step : Type := list string_item -> result (list string_item).

(** A step that appends the same items whatever [out_items] holds
    already, or raises. *)
Definition appends (g : step) : Prop :=
  forall out, g out = (new <- g [] ;; Ok (out ++ new)).

Fixpoint run_steps (steps : list step) (out : list string_item)
  : result (list string_item) :=
  match steps with
  | [] => Ok out
  | s :: steps' => o <- s out ;; run_steps steps' o
  end.

(** The ten loops of [find_strings_in_ib_file], in the order of the
    source. *)
Definition ib_steps (node : element) (filename : text) : list step :=
  [for_each (iter node "button") (button_body filename);
   for_each (iter node "label") (label_body filename);
   for_each (iter node "textField") (text_field_body filename);
   for_each (iter node "segmentedControl") (segmented_control_body filename);
   for_each (iter node "textView") (text_view_body filename);
   for_each (iter node "searchBar") (search_bar_body filename);
   for_each (iter node "barButtonItem") (title_body filename);
   for_each (iter node "tabBarItem") (title_body filename);
   for_each (iter node "navigationItem") (title_body filename);
   for_each (iter node "barButtonItem") (title_body filename)].

Definition given {A : Type} (o : option A) : bool :=
  match o with Some _ => true | None => false end.

(** An element whose attributes [names] are all empty or missing, or
    that has an id. *)
Definition attrs_ok (names : list string) (e : element) : bool :=
  negb (existsb (fun n => truthy (get e n)) names) || given (get e "id").

(** A button each of whose states with a title has a key, the button
    then having an id. *)
Definition button_ok (button : element) : bool :=
  forallb (fun state =>
             negb (truthy (get state "title")) ||
             (given (get button "id") && given (get state "key")))
          (findall button "state").

(** A segmented control with a segments child, and with an id when
    there is a segment. *)
Definition segmented_control_ok (e : element) : bool :=
  match find e "segments" with
  | None => false
  | Some segments =>
      match children_of segments with
      | [] => true
      | _ :: _ => given (get e "id")
      end
  end.

(** A text view with a string child, and with an id when that child
    has a text. *)
Definition text_view_ok (e : element) : bool :=
  match find e "string" with
  | None => false
  | Some string_element =>
      negb (truthy (text_of string_element)) || given (get e "id")
  end.

(** The interface files on which [find_strings_in_ib_file] goes
    through. *)
Definition ib_ok (node : element) : bool :=
  forallb button_ok (iter node "button") &&
  forallb (attrs_ok ["text"%string]) (iter node "label") &&
  forallb (attrs_ok ["text"%string; "placeholder"%string])
          (iter node "textField") &&
  forallb segmented_control_ok (iter node "segmentedControl") &&
  forallb text_view_ok (iter node "textView") &&
  forallb (attrs_ok ["text"%string; "placeholder"%string; "prompt"%string])
          (iter node "searchBar") &&
  forallb (attrs_ok ["title"%string]) (iter node "barButtonItem") &&
  forallb (attrs_ok ["title"%string]) (iter node "tabBarItem") &&
  forallb (attrs_ok ["title"%string]) (iter node "navigationItem").

(* ================================================================== *)
(** ** What the matcher computes

    The matcher finds a match exactly when there is one ([run_sound],
    [run_complete]); which one it finds is settled by uniqueness, or by
    the greedy repetition taking everything ([greedy_all]). *)

Module ReFacts.

Lemma matches_consumes r a b :
  matches r a b ->
  exists w, rest a = w ++ rest b /\ pos b = pos a + length w.
Proof.
  induction 1; simpl.
  - exists []. split; [reflexivity | simpl; lia].
  - exists []. split; reflexivity.
  - exists []. split; [reflexivity | simpl; lia].
  - exists t. split; reflexivity.
  - exists w. split; reflexivity.
  - destruct IHmatches1 as [w1 [E1 P1]], IHmatches2 as [w2 [E2 P2]].
    exists (w1 ++ w2). rewrite E1, E2, P2, P1, length_app, <- app_assoc.
    split; [reflexivity | lia].
  - exists w. split; reflexivity.
Qed.

Lemma strip_prefix_Some s : forall l l',
  strip_prefix s l = Some l' -> l = s ++ l'.
Proof.
  induction s as [|c s IH]; intros l l' H; simpl in *.
  - now inversion H.
  - destruct l as [|d l]; [discriminate|].
    destruct (Ascii.eqb c d) eqn:E; [|discriminate].
    apply Ascii.eqb_eq in E. subst d. now rewrite (IH _ _ H).
Qed.

Lemma strip_prefix_app s l : strip_prefix s (s ++ l) = Some l.
Proof.
  induction s as [|c s IH]; simpl; [reflexivity|].
  now rewrite Ascii.eqb_refl.
Qed.

Lemma orelse_Some A (x y : option A) a :
  orelse x y = Some a -> x = Some a \/ y = Some a.
Proof. destruct x; simpl; auto. Qed.

Lemma orelse_left A (x y : option A) : x <> None -> orelse x y <> None.
Proof. destruct x; simpl; congruence. Qed.

Lemma orelse_right A (x y : option A) : y <> None -> orelse x y <> None.
Proof. destruct x; simpl; congruence. Qed.

Section Greedy.
Variable A : Type.
Variable p : ascii -> bool.
Variable k : nat -> text -> option A.

Lemma greedy_sound : forall s i a,
  greedy p k i s = Some a ->
  exists w s', s = w ++ s' /\ Forall (fun c => p c = true) w /\
               k (i + length w) s' = Some a.
Proof.
  induction s as [|c s IH]; intros i a H; simpl in H.
  - exists [], []. simpl. now rewrite Nat.add_0_r.
  - destruct (p c) eqn:Pc.
    + apply orelse_Some in H. destruct H as [H|H].
      * destruct (IH _ _ H) as [w [s' [E [F K]]]].
        exists (c :: w), s'. subst s. simpl.
        rewrite Nat.add_succ_r. auto.
      * exists [], (c :: s). simpl. now rewrite Nat.add_0_r.
    + exists [], (c :: s). simpl. now rewrite Nat.add_0_r.
Qed.

Lemma greedy_complete : forall w s i,
  Forall (fun c => p c = true) w ->
  k (i + length w) s <> None ->
  greedy p k i (w ++ s) <> None.
Proof.
  induction w as [|c w IH]; intros s i F K; simpl in *.
  - rewrite Nat.add_0_r in K.
    destruct s as [|d s]; simpl; [assumption|].
    destruct (p d); [now apply orelse_right | assumption].
  - inversion F; subst. rewrite H1. apply orelse_left, IH; [assumption|].
    now rewrite Nat.add_succ_r in K.
Qed.

(** The whole of [w] is taken when the continuation accepts that. *)
Lemma greedy_all : forall w s i a,
  Forall (fun c => p c = true) w ->
  (s = [] \/ exists c s', s = c :: s' /\ p c = false) ->
  k (i + length w) s = Some a ->
  greedy p k i (w ++ s) = Some a.
Proof.
  induction w as [|c w IH]; intros s i a F Hs K; simpl in *.
  - rewrite Nat.add_0_r in K.
    destruct Hs as [->|[c [s' [-> Pc]]]]; simpl; [assumption|].
    now rewrite Pc.
  - inversion F; subst. rewrite H1.
    rewrite (IH s (S i) a); [reflexivity | assumption | assumption |].
    now rewrite Nat.add_succ_r in K.
Qed.
End Greedy.

Lemma run_sound r : forall A (k : mstate -> option A) st a,
  run r k st = Some a ->
  exists st', matches r st st' /\ k st' = Some a.
Proof.
  induction r as [| | |t|q cs|r1 IH1 r2 IH2|n r IH];
    intros A k [p s c] a H; simpl in H.
  - eexists. split; [constructor | assumption].
  - destruct p; simpl in H; [|discriminate].
    eexists. split; [constructor | assumption].
  - destruct s as [|x [|y s]]; try discriminate.
    + eexists. split; [constructor; auto | assumption].
    + destruct (Ascii.eqb x lf) eqn:E; [|discriminate].
      apply Ascii.eqb_eq in E. subst x.
      eexists. split; [constructor; auto | assumption].
  - destruct (strip_prefix t s) as [l|] eqn:E; [|discriminate].
    apply strip_prefix_Some in E. subst s.
    eexists. split; [constructor | assumption].
  - destruct q.
    + (* Opt *)
      assert (K0 : k (MState p s c) = Some a ->
                   exists st', matches (Rep Opt cs) (MState p s c) st' /\
                               k st' = Some a).
      { intro K. exists (MState p s c). split; [|assumption].
        generalize (m_rep Opt (cs:=cs) (w:=[]) p s c (Forall_nil _)).
        simpl. rewrite Nat.add_0_r. auto. }
      destruct s as [|x s]; [auto|].
      destruct (in_cset cs x) eqn:E; [|auto].
      apply orelse_Some in H. destruct H as [H|H]; [|auto].
      exists (MState (p + length [x]) s c). split.
      * apply (m_rep Opt (cs:=cs) (w:=[x])); [|simpl; lia].
        constructor; [assumption | constructor].
      * simpl. now rewrite Nat.add_1_r.
    + (* Star *)
      apply greedy_sound in H. destruct H as [w [s' [-> [F K]]]].
      eexists. split; [apply m_rep; [exact F | exact I] | exact K].
    + (* Plus *)
      destruct s as [|x s]; [discriminate|].
      destruct (in_cset cs x) eqn:E; [|discriminate].
      apply greedy_sound in H. destruct H as [w [s' [-> [F K]]]].
      exists (MState (p + length (x :: w)) s' c). split.
      * apply (m_rep Plus (cs:=cs) (w:=x :: w)); [|simpl; lia].
        constructor; assumption.
      * simpl. rewrite Nat.add_succ_r. exact K.
  - apply IH1 in H. destruct H as [m [M1 H]].
    apply IH2 in H. destruct H as [st' [M2 H]].
    exists st'. split; [econstructor; eassumption | assumption].
  - apply IH in H. destruct H as [[p' s' c'] [M H]]. simpl in H.
    destruct (matches_consumes M) as [w [E P]]. simpl in E, P. subst s p'.
    replace (p + length w - p) with (length w) in H by lia.
    rewrite firstn_app, firstn_all, Nat.sub_diag, app_nil_r in H.
    eexists. split; [apply m_grp; exact M | exact H].
Qed.

Lemma run_complete r a b :
  matches r a b ->
  forall A (k : mstate -> option A), k b <> None -> run r k a <> None.
Proof.
  induction 1; intros A k K; simpl.
  - assumption.
  - assumption.
  - destruct H as [->| ->]; simpl; assumption.
  - now rewrite strip_prefix_app.
  - destruct q; simpl in H0.
    + destruct w as [|x [|y w]]; simpl in *; try lia.
      * rewrite Nat.add_0_r in K.
        destruct s as [|y s]; [assumption|].
        destruct (in_cset cs y); [now apply orelse_right | assumption].
      * inversion H; subst. rewrite H3. apply orelse_left.
        now rewrite Nat.add_1_r in K.
    + now apply greedy_complete.
    + destruct w as [|x w]; simpl in *; [lia|].
      inversion H; subst. rewrite H3.
      apply greedy_complete; [assumption|].
      now rewrite Nat.add_succ_r in K.
  - apply IHmatches1, IHmatches2, K.
  - apply IHmatches. simpl.
    replace (p + length w - p) with (length w) by lia.
    now rewrite firstn_app, firstn_all, Nat.sub_diag, app_nil_r.
Qed.

Lemma re_match_sound r line m :
  re_match r line = Some m ->
  exists st', matches r (MState 0 line []) st' /\ caps st' = m.
Proof.
  intro H. apply run_sound in H. destruct H as [st' [M H]].
  exists st'. split; [assumption | congruence].
Qed.

Lemma re_match_none r line :
  (forall st', ~ matches r (MState 0 line []) st') ->
  re_match r line = None.
Proof.
  intro H. destruct (re_match r line) as [m|] eqn:E; [|reflexivity].
  apply re_match_sound in E. destruct E as [st' [M _]].
  now destruct (H st').
Qed.

(** A line with a single way of matching gives that match's groups. *)
Lemma re_match_unique r line st1 :
  matches r (MState 0 line []) st1 ->
  (forall st', matches r (MState 0 line []) st' -> caps st' = caps st1) ->
  re_match r line = Some (caps st1).
Proof.
  intros M U. destruct (re_match r line) as [m|] eqn:E.
  - apply re_match_sound in E. destruct E as [st' [M' <-]].
    now rewrite (U _ M').
  - exfalso. revert E. unfold re_match. apply (run_complete M). discriminate.
Qed.

End ReFacts.

(* ================================================================== *)
(** ** Facts about text *)

Module TextFacts.

Lemma count_app c a b : count c (a ++ b) = count c a + count c b.
Proof. induction a as [|x a IH]; simpl; [reflexivity | rewrite IH; lia]. Qed.

Lemma lacks_count c t : lacks c t = true -> count c t = 0.
Proof.
  induction t as [|x t IH]; simpl; [reflexivity|].
  intro H. apply andb_true_iff in H. destruct H as [H1 H2].
  destruct (Ascii.eqb x c); [discriminate | auto].
Qed.

Lemma count_lacks c t : count c t = 0 -> lacks c t = true.
Proof.
  induction t as [|x t IH]; simpl; [reflexivity|].
  destruct (Ascii.eqb x c); simpl; [discriminate | auto].
Qed.

Lemma lacks_all_in t : lacks lf t = true -> all_in CDot t.
Proof.
  induction t as [|x t IH]; simpl; intro H; [constructor|].
  apply andb_true_iff in H. destruct H as [H1 H2].
  constructor; [exact H1 | apply IH, H2].
Qed.

Lemma all_in_lacks t : all_in CDot t -> lacks lf t = true.
Proof.
  induction 1 as [|x t H _ IH]; simpl; [reflexivity|].
  simpl in H. now rewrite H, IH.
Qed.

Lemma cons_inj (a b : ascii) x y : a :: x = b :: y -> a = b /\ x = y.
Proof. intro H. now inversion H. Qed.

(** Two texts free of [c], each followed by [c]: the same text. *)
Lemma split_at c : forall a b x y,
  count c a = 0 -> count c b = 0 ->
  a ++ c :: x = b ++ c :: y -> a = b /\ x = y.
Proof.
  induction a as [|u a IH]; intros [|v b] x y Ca Cb E; simpl in *.
  - now inversion E.
  - inversion E; subst. rewrite Ascii.eqb_refl in Cb. discriminate.
  - inversion E; subst. rewrite Ascii.eqb_refl in Ca. discriminate.
  - inversion E; subst.
    destruct (Ascii.eqb v c); [discriminate|].
    destruct (IH b x y Ca Cb H1) as [-> ->]. auto.
Qed.

(** The same ending [t ++ [c]], and after it on one side only
    characters that [c] is not: nothing is after it. *)
Lemma tail_unique (P : ascii -> Prop) t c a b z :
  Forall P z -> ~ P c ->
  a ++ t ++ [c] = b ++ t ++ [c] ++ z -> a = b /\ z = [].
Proof.
  intros F N E. destruct z as [|u z' _] using rev_ind.
  - rewrite app_nil_r in E. apply app_inv_tail in E. auto.
  - exfalso. apply N.
    replace (a ++ t ++ [c]) with ((a ++ t) ++ [c]) in E
      by now rewrite <- app_assoc.
    replace (b ++ t ++ [c] ++ z' ++ [u]) with ((b ++ t ++ [c] ++ z') ++ [u])
      in E by now rewrite <- !app_assoc.
    apply app_inj_tail in E. destruct E as [_ ->].
    apply Forall_app in F. destruct F as [_ F]. now inversion F.
Qed.

Lemma plain_inv t :
  plain t = true ->
  count dq t = 0 /\ count lf t = 0 /\ all_in CDot t /\ 1 <= length t.
Proof.
  unfold plain. intro H.
  apply andb_true_iff in H. destruct H as [H H3].
  apply andb_true_iff in H. destruct H as [H1 H2].
  destruct t; [discriminate|].
  repeat split;
    [now apply lacks_count | now apply lacks_count
     | now apply lacks_all_in | simpl; lia].
Qed.

Lemma oneline_inv t :
  oneline t = true -> count lf t = 0 /\ all_in CDot t /\ 1 <= length t.
Proof.
  unfold oneline. intro H.
  apply andb_true_iff in H. destruct H as [H1 H2].
  destruct t; [discriminate|].
  repeat split;
    [now apply lacks_count | now apply lacks_all_in | simpl; lia].
Qed.

Lemma oneline_intro t :
  all_in CDot t -> 1 <= length t -> oneline t = true.
Proof.
  intros D L. unfold oneline. rewrite (all_in_lacks D).
  destruct t; [simpl in L; lia | reflexivity].
Qed.

Lemma plain_oneline t : plain t = true -> oneline t = true.
Proof.
  unfold plain, oneline. intro H.
  apply andb_true_iff in H. destruct H as [H H3].
  apply andb_true_iff in H. destruct H as [H1 H2].
  now rewrite H1, H3.
Qed.

Lemma chomp_lf w : chomp (w ++ [lf]) = w.
Proof.
  induction w as [|c w IH]; [reflexivity|].
  simpl. rewrite IH. destruct w; reflexivity.
Qed.

Lemma chomp_id w : count lf w = 0 -> chomp w = w.
Proof.
  induction w as [|c w IH]; [reflexivity|]. simpl.
  destruct (Ascii.eqb c lf) eqn:E; [discriminate|]. simpl. intro H.
  rewrite (IH H). destruct w; reflexivity.
Qed.

End TextFacts.

(* ================================================================== *)
(** ** Facts about the line grammar *)

Module GrammarFacts.
Import ReFacts TextFacts.

Lemma matches_grp_rep n q cs p l c st' :
  matches (Grp n (Rep q cs)) (MState p l c) st' ->
  exists w s, l = w ++ s /\ all_in cs w /\ qok q (length w) /\
              st' = MState (p + length w) s ((n, w) :: c).
Proof.
  intro H. inversion H as [| | | | | |? ? ? w s ? ? M]; subst.
  inversion M as [| | | |? ? w' ? ? ? F Q| |]; subst.
  match goal with
  | E : _ ++ s = _ ++ s |- _ => apply app_inv_tail in E; subst
  end.
  eauto 10.
Qed.

Lemma matches_rep q cs p l c st' :
  matches (Rep q cs) (MState p l c) st' ->
  exists w s, l = w ++ s /\ all_in cs w /\ qok q (length w) /\
              st' = MState (p + length w) s c.
Proof. intro H. inversion H; subst. eauto 10. Qed.

Lemma matches_lit t p l c st' :
  matches (Lit t) (MState p l c) st' ->
  exists s, l = t ++ s /\ st' = MState (p + length t) s c.
Proof. intro H. inversion H; subst. eauto. Qed.

Lemma matches_bol p l c st' :
  matches Bol (MState p l c) st' -> p = 0 /\ st' = MState p l c.
Proof. intro H. inversion H; subst. auto. Qed.

Lemma matches_eol p l c st' :
  matches Eol (MState p l c) st' ->
  (l = [] \/ l = [lf]) /\ st' = MState p l c.
Proof. intro H. inversion H; subst. auto. Qed.

Lemma matches_cat r1 r2 a d :
  matches (Cat r1 r2) a d -> exists b, matches r1 a b /\ matches r2 b d.
Proof. intro H. inversion H; subst. eauto. Qed.

Lemma matches_eps a b : matches Eps a b -> b = a.
Proof. intro H. inversion H; subst. auto. Qed.

(** Take a match of a pattern apart, item by item. *)
Ltac inv_matches :=
  repeat match goal with
  | H : matches (Cat _ _) _ _ |- _ =>
      apply matches_cat in H; destruct H as [? [? H]]
  | H : matches Eps _ _ |- _ => apply matches_eps in H; subst
  | H : matches Bol (MState _ _ _) _ |- _ =>
      apply matches_bol in H; destruct H as [_ ?]; subst
  | H : matches Eol (MState _ _ _) _ |- _ =>
      apply matches_eol in H; destruct H as [? ?]; subst
  | H : matches (Lit _) (MState _ _ _) _ |- _ =>
      apply matches_lit in H; destruct H as [? [? ?]]; subst
  | H : matches (Rep _ _) (MState _ _ _) _ |- _ =>
      apply matches_rep in H; destruct H as [? [? [? [? [? ?]]]]]; subst
  | H : matches (Grp _ (Rep _ _)) (MState _ _ _) _ |- _ =>
      apply matches_grp_rep in H; destruct H as [? [? [? [? [? ?]]]]]; subst
  end.

(** Put a match together along a line written as the pieces of the
    pattern. *)
Ltac build_match :=
  repeat (eapply m_cat;
          [ first [ apply m_bol
                  | apply m_lit
                  | apply m_eol; auto
                  | apply m_grp; apply m_rep; [assumption | assumption]
                  | apply m_rep; [repeat constructor | simpl; lia] ] | ]);
  apply m_eps.

Ltac count_norm H :=
  repeat first [rewrite count_app in H | progress simpl in H].

Ltac flat H := repeat rewrite <- app_assoc in H; simpl in H.

(** An optional item took no character or one. *)
Ltac opt_cases :=
  repeat match goal with
  | Q : qok Opt (length ?w) |- _ =>
      destruct w as [|? [|? ?]]; simpl in Q; [ | | exfalso; lia]; clear Q
  end.

(** Compare two texts character by character, as far as both show
    their first character. *)
Ltac peel H :=
  repeat (apply cons_inj in H;
          let E := fresh "E" in
          destruct H as [E H];
          try discriminate E;
          match type of E with
          | ?a = ?b =>
              first [ is_var a; subst a | is_var b; subst b | clear E ]
          end);
  try discriminate H.

Ltac plain_hyps :=
  repeat match goal with
  | H : plain _ = true |- _ =>
      apply plain_inv in H; destruct H as [? [? [? ?]]]
  | H : oneline _ = true |- _ =>
      apply oneline_inv in H; destruct H as [? [? ?]]
  end.

Ltac open_pattern P H := unfold P, seq, fold_right in H; inv_matches; simpl.

Lemma re_match_the r line m :
  (exists st1, matches r (MState 0 line []) st1) ->
  (forall st', matches r (MState 0 line []) st' -> caps st' = m) ->
  re_match r line = Some m.
Proof.
  intros [st1 M] U. rewrite (re_match_unique M).
  - now rewrite (U _ M).
  - intros st' M'. now rewrite (U _ M), (U _ M').
Qed.

(** *** The full entry *)

Lemma full_entry_unique K V st' :
  plain K = true -> plain V = true ->
  matches LOCALIZED_STRING_EXPR (MState 0 (entry_line K V) []) st' ->
  caps st' = [("value"%string, V); ("key"%string, K)].
Proof.
  intros HK HV H. plain_hyps.
  open_pattern LOCALIZED_STRING_EXPR H.
  match goal with E : entry_line _ _ = _ |- _ => rename E into E0 end.
  unfold entry_line in E0. flat E0. peel E0.
  assert (C := f_equal (count dq) E0). count_norm C.
  apply split_at in E0; [|lia|lia]. destruct E0 as [<- E0].
  opt_cases; simpl in E0; peel E0.
  all: apply split_at in E0; [|lia|lia]; destruct E0 as [<- E0].
  all: reflexivity.
Qed.

Lemma full_entry_exists K V :
  plain K = true -> plain V = true ->
  exists st', matches LOCALIZED_STRING_EXPR (MState 0 (entry_line K V) []) st'.
Proof.
  intros HK HV. plain_hyps.
  eexists. unfold LOCALIZED_STRING_EXPR, seq, fold_right.
  change (entry_line K V) with
    ([dq] ++ K ++ [dq] ++ [sp] ++ str "=" ++ [sp] ++ [dq] ++ V ++ [dq] ++
     str ";" ++ []).
  build_match.
Qed.

Lemma parse_localized_pair_entry K V :
  plain K = true -> plain V = true ->
  parse_localized_pair (entry_line K V) = (Some K, Some V).
Proof.
  intros HK HV. unfold parse_localized_pair.
  now rewrite (re_match_the (full_entry_exists K V HK HV)
                            (fun st' => @full_entry_unique K V st' HK HV)).
Qed.

(** A value that is left open is not a full entry: it lacks a quote. *)
Lemma parse_localized_pair_value_start K V :
  plain K = true -> plain V = true ->
  parse_localized_pair (value_start_line K V) = (None, None).
Proof.
  intros HK HV. unfold parse_localized_pair.
  rewrite re_match_none; [reflexivity|].
  intros st' H. plain_hyps.
  open_pattern LOCALIZED_STRING_EXPR H.
  match goal with E : value_start_line _ _ = _ |- _ => rename E into E0 end.
  unfold value_start_line in E0. flat E0.
  assert (C := f_equal (count dq) E0). count_norm C. lia.
Qed.


(** *** The full entry with its comment behind it *)

Lemma eol_only_lf x : x = [] \/ x = [lf] -> Forall (fun c => c = lf) x.
Proof. intros [->| ->]; repeat constructor. Qed.

Lemma trailing_unique K V C st' :
  plain K = true -> plain V = true -> plain C = true ->
  matches LOCALIZED_STRING_TRAILING_COMMENT_EXPR
          (MState 0 (entry_comment_line K V C) []) st' ->
  caps st' =
  [("comment"%string, C); ("value"%string, V); ("key"%string, K)].
Proof.
  intros HK HV HC H. plain_hyps.
  open_pattern LOCALIZED_STRING_TRAILING_COMMENT_EXPR H.
  match goal with E : entry_comment_line _ _ _ = _ |- _ => rename E into E0 end.
  unfold entry_comment_line in E0. flat E0. peel E0.
  assert (Q := f_equal (count dq) E0). count_norm Q.
  apply split_at in E0; [|lia|lia]. destruct E0 as [<- E0].
  opt_cases; simpl in E0; peel E0.
  all: apply split_at in E0; [|lia|lia]; destruct E0 as [<- E0].
  all: simpl in E0; peel E0.
  match goal with
  | F : ?z = [] \/ ?z = [lf] |- _ =>
      apply eol_only_lf in F;
      destruct (tail_unique [sp; "*"%char] "/"%char C _ F
                            ltac:(discriminate) E0) as [<- _];
      reflexivity
  end.
Qed.

Lemma trailing_exists K V C :
  plain K = true -> plain V = true -> plain C = true ->
  exists st', matches LOCALIZED_STRING_TRAILING_COMMENT_EXPR
                      (MState 0 (entry_comment_line K V C) []) st'.
Proof.
  intros HK HV HC. plain_hyps.
  eexists. unfold LOCALIZED_STRING_TRAILING_COMMENT_EXPR, seq, fold_right.
  change (entry_comment_line K V C) with
    ([dq] ++ K ++ [dq] ++ [sp] ++ str "=" ++ [sp] ++ [dq] ++ V ++ [dq] ++
     [] ++ str ";" ++ [sp] ++ str "/* " ++ C ++ str " */" ++ []).
  build_match.
Qed.

Lemma parse_trailing_comment_entry K V C :
  plain K = true -> plain V = true -> plain C = true ->
  parse_trailing_comment (entry_comment_line K V C) = (Some K, Some V, Some C).
Proof.
  intros HK HV HC. unfold parse_trailing_comment.
  now rewrite (re_match_the (trailing_exists K V C HK HV HC)
                            (fun st' => @trailing_unique K V C st' HK HV HC)).
Qed.

(** A full entry with nothing behind it has no comment to match. *)
Lemma parse_trailing_comment_plain_entry K V :
  plain K = true -> plain V = true ->
  parse_trailing_comment (entry_line K V) = (None, None, None).
Proof.
  intros HK HV. unfold parse_trailing_comment.
  rewrite re_match_none; [reflexivity|].
  intros st' H. plain_hyps.
  open_pattern LOCALIZED_STRING_TRAILING_COMMENT_EXPR H.
  match goal with E : entry_line _ _ = _ |- _ => rename E into E0 end.
  unfold entry_line in E0. flat E0. peel E0.
  assert (Q := f_equal (count dq) E0). count_norm Q.
  apply split_at in E0; [|lia|lia]. destruct E0 as [<- E0].
  opt_cases; simpl in E0; peel E0.
  all: apply split_at in E0; [|lia|lia]; destruct E0 as [<- E0].
  all: simpl in E0; peel E0.
Qed.

(** The patterns of an entry all begin with a quote. *)
Lemma parse_trailing_comment_no_quote line :
  begins_with dq line = false ->
  parse_trailing_comment line = (None, None, None).
Proof.
  intro B. unfold parse_trailing_comment.
  rewrite re_match_none; [reflexivity|].
  intros st' H. open_pattern LOCALIZED_STRING_TRAILING_COMMENT_EXPR H.
  simpl in B. discriminate B.
Qed.

(** *** The entry whose value is left open, and the end of the value *)

Lemma value_start_unique K V st' :
  plain K = true -> plain V = true ->
  matches LOCALIZED_STRING_MULTILINE_START_EXPR
          (MState 0 (value_start_line K V) []) st' ->
  caps st' = [("value"%string, V); ("key"%string, K)].
Proof.
  intros HK HV H. plain_hyps.
  open_pattern LOCALIZED_STRING_MULTILINE_START_EXPR H.
  match goal with E : value_start_line _ _ = _ |- _ => rename E into E0 end.
  unfold value_start_line in E0. flat E0. peel E0.
  assert (Q := f_equal (count dq) E0). count_norm Q.
  apply split_at in E0; [|lia|lia]. destruct E0 as [<- E0].
  opt_cases; simpl in E0; peel E0.
  all: match goal with
       | F : ?z = [] \/ ?z = [lf] |- _ => destruct F; subst
       end.
  all: try (rewrite app_nil_r; reflexivity).
  all: exfalso; match goal with
       | L : count lf (_ ++ [lf]) = 0 |- _ =>
           rewrite count_app in L; simpl in L; lia
       end.
Qed.

Lemma value_start_exists K V :
  plain K = true -> plain V = true ->
  exists st', matches LOCALIZED_STRING_MULTILINE_START_EXPR
                      (MState 0 (value_start_line K V) []) st'.
Proof.
  intros HK HV. plain_hyps.
  eexists. unfold LOCALIZED_STRING_MULTILINE_START_EXPR, seq, fold_right.
  replace (value_start_line K V) with
    ([dq] ++ K ++ [dq] ++ [sp] ++ str "=" ++ [sp] ++ [dq] ++ V ++ [])
    by (unfold value_start_line; now rewrite app_nil_r).
  build_match.
Qed.

Lemma parse_multiline_start_value_start K V :
  plain K = true -> plain V = true ->
  parse_multiline_start (value_start_line K V) = (Some K, Some V).
Proof.
  intros HK HV. unfold parse_multiline_start.
  now rewrite (re_match_the (value_start_exists K V HK HV)
                            (fun st' => @value_start_unique K V st' HK HV)).
Qed.

Lemma value_end_unique V st' :
  plain V = true ->
  matches LOCALIZED_STRING_MULTILINE_END_EXPR
          (MState 0 (value_end_line V) []) st' ->
  caps st' = [("value"%string, V)].
Proof.
  intros HV H. plain_hyps.
  open_pattern LOCALIZED_STRING_MULTILINE_END_EXPR H.
  match goal with E : value_end_line _ = _ |- _ => rename E into E0 end.
  unfold value_end_line in E0. flat E0.
  assert (Q := f_equal (count dq) E0). count_norm Q.
  apply split_at in E0; [|lia|lia]. destruct E0 as [<- E0].
  reflexivity.
Qed.

Lemma value_end_exists V :
  plain V = true ->
  exists st', matches LOCALIZED_STRING_MULTILINE_END_EXPR
                      (MState 0 (value_end_line V) []) st'.
Proof.
  intros HV. plain_hyps.
  eexists. unfold LOCALIZED_STRING_MULTILINE_END_EXPR, seq, fold_right.
  change (value_end_line V) with
    (V ++ [dq] ++ [] ++ str ";" ++ [] ++ []).
  build_match.
Qed.

Lemma parse_multiline_end_value_end V :
  plain V = true ->
  parse_multiline_end (value_end_line V) = Some V.
Proof.
  intros HV. unfold parse_multiline_end.
  now rewrite (re_match_the (value_end_exists V HV)
                            (fun st' => @value_end_unique V st' HV)).
Qed.


(** *** Comments *)

Ltac bad_char :=
  match goal with
  | F : all_in _ (_ :: _) |- _ =>
      inversion F as [|? ? Hc ?]; vm_compute in Hc; discriminate Hc
  end.

Lemma begins_with_inv c line :
  begins_with c line = true -> exists l, line = c :: l.
Proof.
  destruct line as [|x l]; simpl; [discriminate|].
  intro H. apply Ascii.eqb_eq in H. subst. eauto.
Qed.

Lemma greedy_all_nil A p (k : nat -> text -> option A) w i a :
  Forall (fun c => p c = true) w ->
  k (i + length w) [] = Some a ->
  greedy p k i w = Some a.
Proof.
  intros F K. rewrite <- (app_nil_r w). apply greedy_all; auto.
Qed.

(** The first line of an open comment: the greedy repetition takes the
    whole line, final word characters included. *)
Lemma parse_multiline_comment_start_comment L :
  oneline L = true ->
  parse_multiline_comment_start (comment_start_line L) = Some L.
Proof.
  intro HL. plain_hyps. destruct L as [|c L]; [simpl in *; lia|].
  match goal with F : all_in CDot (_ :: _) |- _ =>
    inversion F as [|? ? Hc HL']; subst end.
  unfold parse_multiline_comment_start, re_match, COMMENT_MULTILINE_START,
    seq, fold_right, comment_start_line.
  simpl. simpl in Hc. rewrite Hc.
  erewrite greedy_all_nil; [ | exact HL' | simpl; reflexivity ].
  simpl. now rewrite firstn_all.
Qed.

Lemma word_or_lf x z :
  all_in CWord x -> z = [] \/ z = [lf] ->
  Forall (fun c => in_cset CWord c = true \/ c = lf) (x ++ z).
Proof.
  intros F Z. apply Forall_app. split.
  - eapply Forall_impl; [|exact F]. simpl. auto.
  - destruct Z as [->| ->]; [constructor|].
    constructor; [now right | constructor].
Qed.

Lemma space_or_lf x z :
  all_in CSpace x -> z = [] \/ z = [lf] ->
  Forall (fun c => in_cset CSpace c = true \/ c = lf) (x ++ z).
Proof.
  intros F Z. apply Forall_app. split.
  - eapply Forall_impl; [|exact F]. simpl. auto.
  - destruct Z as [->| ->]; [constructor|].
    constructor; [now right | constructor].
Qed.

Lemma not_slash :
  ~ (in_cset CWord "/"%char = true \/ "/"%char = lf).
Proof. intros [N|N]; [vm_compute in N|]; discriminate N. Qed.

Lemma not_slash' :
  ~ (in_cset CSpace "/"%char = true \/ "/"%char = lf).
Proof. intros [N|N]; [vm_compute in N|]; discriminate N. Qed.

Lemma comment_unique C st' :
  oneline C = true ->
  matches COMMENT_EXPR (MState 0 (comment_line C) []) st' ->
  caps st' = [("comment"%string, C)].
Proof.
  intros HC H. plain_hyps.
  open_pattern COMMENT_EXPR H.
  match goal with E : comment_line _ = _ |- _ => rename E into E0 end.
  unfold comment_line in E0. flat E0.
  match type of E0 with
  | _ = ?x ++ _ => destruct x as [|a x]; simpl in E0; peel E0; [|bad_char]
  end.
  match goal with
  | F : all_in CWord ?x, Z : ?z = [] \/ ?z = [lf] |- _ =>
      destruct (tail_unique [sp; "*"%char] "/"%char C _ (word_or_lf F Z)
                            not_slash E0) as [<- _]; reflexivity
  end.
Qed.

Lemma comment_exists C :
  oneline C = true ->
  exists st', matches COMMENT_EXPR (MState 0 (comment_line C) []) st'.
Proof.
  intros HC. plain_hyps.
  eexists. unfold COMMENT_EXPR, seq, fold_right.
  change (comment_line C) with
    ([] ++ str "/* " ++ C ++ str " */" ++ [] ++ []).
  build_match.
Qed.

Lemma parse_comment_comment C :
  oneline C = true -> parse_comment (comment_line C) = Some C.
Proof.
  intros HC. unfold parse_comment.
  now rewrite (re_match_the (comment_exists C HC)
                            (fun st' => @comment_unique C st' HC)).
Qed.

(** A line that begins with a quote is no comment and opens none. *)
Lemma parse_comment_quote line :
  begins_with dq line = true -> parse_comment line = None.
Proof.
  intro B. apply begins_with_inv in B. destruct B as [l ->].
  unfold parse_comment. rewrite re_match_none; [reflexivity|].
  intros st' H. open_pattern COMMENT_EXPR H.
  match goal with
  | E : _ :: _ = ?x ++ _ |- _ =>
      destruct x as [|a x]; simpl in E; peel E; bad_char
  end.
Qed.

Lemma parse_multiline_comment_start_quote line :
  begins_with dq line = true -> parse_multiline_comment_start line = None.
Proof.
  intro B. apply begins_with_inv in B. destruct B as [l ->].
  unfold parse_multiline_comment_start. rewrite re_match_none; [reflexivity|].
  intros st' H. open_pattern COMMENT_MULTILINE_START H.
  match goal with
  | E : _ :: _ = ?x ++ _ |- _ =>
      destruct x as [|a x]; simpl in E; peel E; bad_char
  end.
Qed.

Lemma comment_end_unique L st' :
  oneline L = true ->
  matches COMMENT_MULTILINE_END (MState 0 (comment_end_line L) []) st' ->
  caps st' = [("comment"%string, L)].
Proof.
  intros HL H. plain_hyps.
  open_pattern COMMENT_MULTILINE_END H.
  match goal with E : comment_end_line _ = _ |- _ => rename E into E0 end.
  unfold comment_end_line in E0. flat E0.
  match goal with
  | F : all_in CSpace ?x, Z : ?z = [] \/ ?z = [lf] |- _ =>
      destruct (tail_unique ["*"%char] "/"%char L _ (space_or_lf F Z)
                            not_slash' E0) as [<- _]; reflexivity
  end.
Qed.

Lemma comment_end_exists L :
  oneline L = true ->
  exists st', matches COMMENT_MULTILINE_END
                      (MState 0 (comment_end_line L) []) st'.
Proof.
  intros HL. plain_hyps.
  eexists. unfold COMMENT_MULTILINE_END, seq, fold_right.
  change (comment_end_line L) with (L ++ str "*/" ++ [] ++ []).
  build_match.
Qed.

Lemma parse_multiline_comment_end_comment_end L :
  oneline L = true ->
  parse_multiline_comment_end (comment_end_line L) = Some L.
Proof.
  intros HL. unfold parse_multiline_comment_end.
  now rewrite (re_match_the (comment_end_exists L HL)
                            (fun st' => @comment_end_unique L st' HL)).
Qed.

(** *** Lines taken as they are *)

Lemma chomp_split line : line = chomp line \/ line = chomp line ++ [lf].
Proof.
  induction line as [|c l IH]; [now left|].
  destruct l as [|d l].
  - simpl. destruct (Ascii.eqb c lf) eqn:E; [|now left].
    apply Ascii.eqb_eq in E. subst. now right.
  - change (chomp (c :: d :: l)) with (c :: chomp (d :: l)).
    destruct IH as [IH|IH]; [left | right].
    + now rewrite <- IH.
    + change ((c :: chomp (d :: l)) ++ [lf])
        with (c :: (chomp (d :: l) ++ [lf])).
      now rewrite <- IH.
Qed.

Lemma whole_line_unique n line st' :
  matches (seq [Bol; Grp n (Rep Plus CDot); Eol]) (MState 0 line []) st' ->
  oneline (chomp line) = true /\ caps st' = [(n, chomp line)].
Proof.
  intro H. unfold seq, fold_right in H. inv_matches. simpl.
  match goal with
  | D : all_in CDot ?x, Q : qok Plus (length ?x), Z : ?z = [] \/ ?z = [lf]
    |- _ =>
      assert (O : oneline x = true) by (apply oneline_intro; assumption);
      assert (C : chomp (x ++ z) = x)
        by (destruct Z as [->| ->];
            [ rewrite app_nil_r; apply chomp_id, lacks_count, all_in_lacks, D
            | apply chomp_lf ])
  end.
  rewrite C. auto.
Qed.

Lemma whole_line_exists n line :
  oneline (chomp line) = true ->
  exists st',
    matches (seq [Bol; Grp n (Rep Plus CDot); Eol]) (MState 0 line []) st'.
Proof.
  intro O. plain_hyps. unfold seq, fold_right.
  destruct (chomp_split line) as [E|E]; rewrite E; eexists.
  - rewrite <- (app_nil_r (chomp line)). build_match.
  - build_match.
Qed.

Lemma whole_line n line :
  re_match (seq [Bol; Grp n (Rep Plus CDot); Eol]) line =
  if oneline (chomp line) then Some [(n, chomp line)] else None.
Proof.
  destruct (oneline (chomp line)) eqn:O.
  - apply re_match_the; [now apply whole_line_exists|].
    intros st' M. now apply whole_line_unique in M.
  - apply re_match_none. intros st' M.
    apply whole_line_unique in M. destruct M as [M _]. congruence.
Qed.

(** Anything is a line of a comment but a blank line or text with a
    line feed inside it. *)
Lemma parse_multiline_comment_line_spec line :
  parse_multiline_comment_line line =
  if oneline (chomp line) then Some (chomp line) else None.
Proof.
  unfold parse_multiline_comment_line, COMMENT_MULTILINE_LINE.
  rewrite whole_line. now destruct (oneline (chomp line)).
Qed.

Lemma parse_multiline_line_spec line :
  parse_multiline_line line =
  if oneline (chomp line) then Some (chomp line) else None.
Proof.
  unfold parse_multiline_line, LOCALIZED_STRING_MULTILINE_LINE_EXPR.
  rewrite whole_line. now destruct (oneline (chomp line)).
Qed.


(** *** Comments that are left open *)

Lemma closes_app a b : closes (a ++ "*"%char :: "/"%char :: b) = true.
Proof.
  induction a as [|c a IH]; [reflexivity|].
  change ((c :: a) ++ "*"%char :: "/"%char :: b)
    with (c :: (a ++ "*"%char :: "/"%char :: b)).
  remember (a ++ "*"%char :: "/"%char :: b) as t eqn:E.
  destruct t as [|d t]; [destruct a; discriminate E|].
  simpl. simpl in IH. rewrite IH. apply orb_true_r.
Qed.

(** An open comment is no single-line comment. *)
Lemma parse_comment_open L :
  closes L = false -> parse_comment (comment_start_line L) = None.
Proof.
  intro HL. unfold parse_comment. rewrite re_match_none; [reflexivity|].
  intros st' H. open_pattern COMMENT_EXPR H.
  match goal with E : comment_start_line _ = _ |- _ => rename E into E0 end.
  unfold comment_start_line in E0. flat E0.
  match type of E0 with
  | _ = ?x ++ _ => destruct x as [|a x]; simpl in E0; peel E0; [|bad_char]
  end.
  subst L. change (?x ++ " "%char :: "*"%char :: "/"%char :: ?y)
    with (x ++ [" "%char] ++ "*"%char :: "/"%char :: y) in HL.
  rewrite app_assoc, closes_app in HL. discriminate HL.
Qed.

(** A line without the closing characters does not end a comment. *)
Lemma parse_multiline_comment_end_open line :
  closes line = false -> parse_multiline_comment_end line = None.
Proof.
  intro HL. unfold parse_multiline_comment_end.
  rewrite re_match_none; [reflexivity|].
  intros st' H. open_pattern COMMENT_MULTILINE_END H.
  simpl in HL. rewrite closes_app in HL. discriminate HL.
Qed.

End GrammarFacts.

(* ================================================================== *)
(** ** Facts about the state machine *)

Module ParserFacts.
Import ReFacts TextFacts GrammarFacts.

#[local] Arguments parse_trailing_comment : simpl never.
#[local] Arguments parse_comment : simpl never.
#[local] Arguments parse_multiline_comment_start : simpl never.
#[local] Arguments parse_multiline_comment_end : simpl never.
#[local] Arguments parse_multiline_comment_line : simpl never.
#[local] Arguments parse_localized_pair : simpl never.
#[local] Arguments parse_multiline_start : simpl never.
#[local] Arguments parse_multiline_end : simpl never.
#[local] Arguments parse_multiline_line : simpl never.

(** *** One call, state by state *)

Ltac step :=
  intros;
  match goal with
  | |- parse_line ?p _ = _ => destruct p
  end;
  simpl in *; subst; unfold parse_line; simpl;
  repeat match goal with
         | H : _ = _ |- _ => rewrite H; clear H; simpl
         end;
  reflexivity.

Lemma step_comment_entry p line k v c :
  parse_state p = COMMENT ->
  parse_trailing_comment line = (Some k, Some v, Some c) ->
  parse_line p line =
  Ok (mkParser COMMENT None None None (comment_partial p) (value_partial p),
      Some (mkLocalizedString (Some k) (Some v) (Some c))).
Proof. step. Qed.

Lemma step_comment_single p line c :
  parse_state p = COMMENT ->
  parse_trailing_comment line = (None, None, None) ->
  parse_comment line = Some c ->
  parse_line p line =
  Ok (mkParser STRING None None (Some c) (comment_partial p) (value_partial p),
      None).
Proof. step. Qed.

Lemma step_comment_start p line t :
  parse_state p = COMMENT ->
  parse_trailing_comment line = (None, None, None) ->
  parse_comment line = None ->
  parse_multiline_comment_start line = Some t ->
  parse_line p line =
  Ok (mkParser COMMENT_MULTILINE None None None (Some (Some t))
               (value_partial p),
      None).
Proof. step. Qed.

Lemma step_comment_none p line :
  parse_state p = COMMENT ->
  parse_trailing_comment line = (None, None, None) ->
  parse_comment line = None ->
  parse_multiline_comment_start line = None ->
  parse_line p line =
  Ok (mkParser COMMENT None None None (Some None) (value_partial p), None).
Proof. step. Qed.

Lemma step_in_comment_end p line t e :
  parse_state p = COMMENT_MULTILINE ->
  comment_partial p = Some (Some t) ->
  parse_multiline_comment_end line = Some e ->
  parse_line p line =
  Ok (mkParser STRING (key p) (value p) (Some (t ++ [lf] ++ e)) (Some None)
               (value_partial p),
      None).
Proof. step. Qed.

Lemma step_in_comment_line p line t l :
  parse_state p = COMMENT_MULTILINE ->
  comment_partial p = Some (Some t) ->
  parse_multiline_comment_end line = None ->
  parse_multiline_comment_line line = Some l ->
  parse_line p line =
  Ok (mkParser COMMENT_MULTILINE (key p) (value p) (comment p)
               (Some (Some (t ++ [lf] ++ l))) (value_partial p),
      None).
Proof. step. Qed.

Lemma step_in_comment_skip p line :
  parse_state p = COMMENT_MULTILINE ->
  parse_multiline_comment_end line = None ->
  parse_multiline_comment_line line = None ->
  parse_line p line = Ok (p, None).
Proof. step. Qed.

Lemma step_string_entry p line k v :
  parse_state p = STRING ->
  parse_localized_pair line = (Some k, Some v) ->
  parse_line p line =
  Ok (mkParser COMMENT None None None (comment_partial p) (value_partial p),
      Some (mkLocalizedString (Some k) (Some v) (comment p))).
Proof. step. Qed.

Lemma step_string_start p line k v :
  parse_state p = STRING ->
  parse_localized_pair line = (None, None) ->
  parse_multiline_start line = (Some k, Some v) ->
  parse_line p line =
  Ok (mkParser STRING_MULTILINE (Some k) None (comment p) (comment_partial p)
               (Some (Some v)),
      None).
Proof. step. Qed.

Lemma step_string_none p line :
  parse_state p = STRING ->
  parse_localized_pair line = (None, None) ->
  parse_multiline_start line = (None, None) ->
  parse_line p line =
  Ok (mkParser STRING None None (comment p) (comment_partial p) (Some None),
      None).
Proof. step. Qed.

Lemma step_in_value_end p line t e :
  parse_state p = STRING_MULTILINE ->
  value_partial p = Some (Some t) ->
  parse_multiline_end line = Some e ->
  parse_line p line =
  Ok (mkParser COMMENT None None None (comment_partial p) (Some None),
      Some (mkLocalizedString (key p) (Some (t ++ [lf] ++ e)) (comment p))).
Proof. step. Qed.

Lemma step_trailing_comment p line c :
  parse_state p = TRAILING_COMMENT ->
  parse_comment line = Some c ->
  parse_line p line =
  Ok (mkParser COMMENT None None None (comment_partial p) (value_partial p),
      Some (mkLocalizedString (key p) (value p) (Some c))).
Proof. step. Qed.

Lemma step_trailing_comment_none p line :
  parse_state p = TRAILING_COMMENT ->
  parse_comment line = None ->
  parse_line p line =
  Ok (mkParser TRAILING_COMMENT (key p) (value p) None (comment_partial p)
               (value_partial p),
      None).
Proof. step. Qed.

(** *** What every call keeps *)

Ltac kept :=
  do 2 eexists; (split; [reflexivity|]); split;
  [ unfold sane, is_text; simpl;
    first [ exact I | solve [eauto] | split; [solve [eauto] | congruence] ]
  | intros e E; inversion E; subst; unfold resolved; simpl;
    repeat split; congruence ].

Lemma step_sane p line :
  sane p ->
  exists p' r,
    parse_line p line = Ok (p', r) /\ sane p' /\
    (forall e, r = Some e -> resolved e /\ parse_state p' = COMMENT).
Proof.
  destruct p as [s k v c cp vp]. unfold sane, is_text. simpl.
  intro S. destruct s; unfold parse_line; simpl.
  - destruct (parse_trailing_comment line) as [[[k'|] [v'|]] [c'|]]; simpl;
      try (destruct (parse_comment line); simpl;
           try (destruct (parse_multiline_comment_start line); simpl));
      kept.
  - destruct (parse_localized_pair line) as [[k'|] [v'|]]; simpl;
      try (destruct (parse_multiline_start line) as [[k''|] [v''|]]; simpl);
      kept.
  - contradiction.
  - destruct S as [[t ->] Hk]. simpl.
    destruct (parse_multiline_end line); simpl;
      try (destruct (parse_multiline_line line); simpl);
      kept.
  - destruct S as [t ->]. simpl.
    destruct (parse_multiline_comment_end line); simpl;
      try (destruct (parse_multiline_comment_line line); simpl);
      kept.
Qed.

Lemma init_sane : sane init.
Proof. exact I. Qed.

Lemma calls_sane lines : forall p,
  sane p ->
  exists p' rs,
    calls p lines = Ok (p', rs) /\ sane p' /\ Forall resolved (entries rs).
Proof.
  induction lines as [|line lines IH]; intros p S; simpl.
  - exists p, []. repeat split; [assumption | constructor].
  - destruct (@step_sane p line S) as [p1 [r [E [S1 R]]]]. rewrite E. simpl.
    destruct (IH p1 S1) as [p2 [rs [E2 [S2 F]]]]. rewrite E2. simpl.
    exists p2, (r :: rs). repeat split; [assumption|].
    destruct r as [e|]; simpl; [|assumption].
    constructor; [|assumption]. now destruct (R e eq_refl).
Qed.

Lemma calls_app l1 : forall p l2,
  calls p (l1 ++ l2) =
  (r1 <- calls p l1 ;;
   r2 <- calls (fst r1) l2 ;;
   Ok (fst r2, snd r1 ++ snd r2)).
Proof.
  induction l1 as [|line l1 IH]; intros p l2; simpl.
  - destruct (calls p l2) as [[p' rs]|e]; reflexivity.
  - destruct (parse_line p line) as [[p1 r]|e]; simpl; [|reflexivity].
    rewrite IH. destruct (calls p1 l1) as [[p2 rs]|e]; simpl; [|reflexivity].
    destruct (calls p2 l2) as [[p3 rs']|e]; reflexivity.
Qed.

Lemma entries_app a b : entries (a ++ b) = entries a ++ entries b.
Proof.
  induction a as [|[e|] a IH]; simpl; [reflexivity | now rewrite IH | exact IH].
Qed.

(** The loop of [parse_file] puts the entries the calls return into the
    dictionary, in their order. *)
Lemma parse_file_loop_calls lines : forall p d,
  parse_file_loop p d lines =
  (r <- calls p lines ;;
   Ok (fold_left (fun d e => dict_set d (ls_key e) (ls_value e))
                 (entries (snd r)) d)).
Proof.
  induction lines as [|line lines IH]; intros p d; simpl; [reflexivity|].
  destruct (parse_line p line) as [[p1 r]|e]; simpl; [|reflexivity].
  destruct r as [x|]; rewrite IH;
    destruct (calls p1 lines) as [[p2 rs]|e']; reflexivity.
Qed.

End ParserFacts.

(* ================================================================== *)
(** ** The doctests of the source *)

Module Doctests.

Example parse_multiline_start_doctest :
  parse_multiline_start (value_start_line (str "key") (str "value4")) =
  (Some (str "key"), Some (str "value4")).
Proof. vm_compute. reflexivity. Qed.

Example parse_multiline_line_doctest :
  parse_multiline_line (str "value4, maybe something else") =
  Some (str "value4, maybe something else").
Proof. vm_compute. reflexivity. Qed.

Example parse_multiline_end_doctest :
  parse_multiline_end (value_end_line (str "value4, maybe something else")) =
  Some (str "value4, maybe something else").
Proof. vm_compute. reflexivity. Qed.

Example parse_trailing_comment_doctest :
  parse_trailing_comment
    ([dq] ++ str "key3" ++ [dq] ++ str " = " ++ [dq] ++ str "value3" ++ [dq] ++
     str ";/* Bla */") =
  (Some (str "key3"), Some (str "value3"), Some (str "Bla")).
Proof. vm_compute. reflexivity. Qed.

Example parse_multiline_comment_start_doctest :
  parse_multiline_comment_start (str "/* Hello ") = Some (str "Hello ").
Proof. vm_compute. reflexivity. Qed.

Example parse_multiline_comment_line_doctest :
  parse_multiline_comment_line (str " Line ") = Some (str " Line ").
Proof. vm_compute. reflexivity. Qed.

Example parse_multiline_comment_end_doctest :
  parse_multiline_comment_end (str " End */ ") = Some (str " End ").
Proof. vm_compute. reflexivity. Qed.

Example parse_comment_doctest :
  parse_comment (str "This line is no comment") = None /\
  parse_comment [] = None /\
  parse_comment (str "/* Comment */") = Some (str "Comment").
Proof. vm_compute. repeat split. Qed.

Example parse_localized_pair_doctest :
  parse_localized_pair (str "Some Line") = (None, None) /\
  parse_localized_pair (str "/* Comment */") = (None, None) /\
  parse_localized_pair (entry_line (str "key1") (str "value1")) =
  (Some (str "key1"), Some (str "value1")).
Proof. vm_compute. repeat split. Qed.

Example is_raw_doctest :
  is_raw (mkLocalizedString (Some (str "key1")) (Some (str "valye1"))
                            (Some (str "comment1"))) = false /\
  is_raw (mkLocalizedString (Some (str "key2")) (Some (str "key2"))
                            (Some (str "comment2"))) = true.
Proof. vm_compute. split; reflexivity. Qed.

(** The first doctest of [parse_line]: blank lines between a comment
    and its entry are passed over. *)
Example parse_line_doctest :
  exists p,
    calls init [str "    "; str "/* Comment1 */"; str "    ";
                entry_line (str "key1") (str "value1");
                str "/* Comment2 */";
                entry_line (str "key2") (str "value2")] =
    Ok (p, [None; None; None;
            Some (mkLocalizedString (Some (str "key1")) (Some (str "value1"))
                                    (Some (str "Comment1")));
            None;
            Some (mkLocalizedString (Some (str "key2")) (Some (str "value2"))
                                    (Some (str "Comment2")))]).
Proof. eexists. vm_compute. reflexivity. Qed.

(** The lines as [parse_file] gives them, with their line feed. *)
Example parse_file_example :
  parse_file [str "/* Comment1 */" ++ [lf];
              entry_line (str "key1") (str "value1") ++ [lf];
              [lf];
              str "/* Comment2 */" ++ [lf];
              entry_line (str "key1") (str "value2") ++ [lf]] =
  Ok [(Some (str "key1"), Some (str "value2"))].
Proof. vm_compute. reflexivity. Qed.

End Doctests.

(* ================================================================== *)
(** ** The properties of the parser *)

Import ReFacts TextFacts GrammarFacts ParserFacts.

#[local] Arguments parse_line : simpl never.
#[local] Arguments calls : simpl never.
#[local] Arguments str : simpl never.
#[local] Arguments entry_line : simpl never.
#[local] Arguments entry_comment_line : simpl never.
#[local] Arguments comment_line : simpl never.
#[local] Arguments comment_start_line : simpl never.
#[local] Arguments comment_end_line : simpl never.
#[local] Arguments value_start_line : simpl never.
#[local] Arguments value_end_line : simpl never.

Lemma calls_cons p line lines :
  calls p (line :: lines) =
  (r <- parse_line p line ;;
   rs <- calls (fst r) lines ;;
   Ok (fst rs, snd r :: snd rs)).
Proof. reflexivity. Qed.

Lemma calls_init_sane lines p rs : calls init lines = Ok (p, rs) -> sane p.
Proof.
  intro E. destruct (@calls_sane lines init init_sane) as [p' [rs' [E' [S _]]]].
  congruence.
Qed.

Lemma comment_line_no_quote C : begins_with dq (comment_line C) = false.
Proof. reflexivity. Qed.

Lemma comment_start_line_no_quote L :
  begins_with dq (comment_start_line L) = false.
Proof. reflexivity. Qed.

Lemma entry_line_quote K V : begins_with dq (entry_line K V) = true.
Proof. reflexivity. Qed.

Create HintDb grammar.
#[local] Hint Resolve
  parse_localized_pair_entry parse_localized_pair_value_start
  parse_trailing_comment_entry parse_trailing_comment_plain_entry
  parse_trailing_comment_no_quote
  parse_multiline_start_value_start parse_multiline_end_value_end
  parse_comment_comment parse_comment_quote parse_comment_open
  parse_multiline_comment_start_comment parse_multiline_comment_start_quote
  parse_multiline_comment_end_comment_end parse_multiline_comment_end_open
  comment_line_no_quote comment_start_line_no_quote entry_line_quote
  : grammar.

(** One call of [parse_line], by the lemma [L] of its case. *)
Ltac fire L :=
  rewrite ?calls_cons;
  erewrite L by (first [reflexivity | solve [eauto with grammar]]);
  simpl.

(** A single-line comment, then a full entry. *)
Lemma comment_then_entry p C K V :
  parse_state p = COMMENT ->
  oneline C = true -> plain K = true -> plain V = true ->
  calls p [comment_line C; entry_line K V] =
  Ok (mkParser COMMENT None None None (comment_partial p) (value_partial p),
      [None; Some (mkLocalizedString (Some K) (Some V) (Some C))]).
Proof.
  intros S HC HK HV.
  fire step_comment_single. fire step_string_entry. reflexivity.
Qed.

(** C1 (as stated, refuted): no sequence of lines brings a fresh parser
    into the state [TRAILING_COMMENT]. *)
Lemma C1_counterexample :
  ~ exists lines p rs,
      calls init lines = Ok (p, rs) /\ parse_state p = TRAILING_COMMENT.
Proof.
  intros [lines [p [rs [E S]]]]. apply calls_init_sane in E.
  unfold sane in E. now rewrite S in E.
Qed.

(** C1 (amended): the state [TRAILING_COMMENT] is entered by no sequence
    of lines, from the completion of a multi-line value or otherwise.  A
    parser that is in it returns the pending entry on a line that matches
    the single-line comment grammar, with that comment, and goes back to
    [COMMENT]; on any other line it returns nothing and stays. *)
Theorem C1_trailing_comment_state p line :
  parse_state p = TRAILING_COMMENT ->
  (forall lines rs, calls init lines <> Ok (p, rs)) /\
  (forall c, parse_comment line = Some c ->
     exists p',
       parse_line p line =
       Ok (p', Some (mkLocalizedString (key p) (value p) (Some c))) /\
       parse_state p' = COMMENT) /\
  (parse_comment line = None ->
     exists p', parse_line p line = Ok (p', None) /\
                parse_state p' = TRAILING_COMMENT).
Proof.
  intro S. repeat split.
  - intros lines rs E. apply calls_init_sane in E.
    unfold sane in E. now rewrite S in E.
  - intros c Hc. rewrite (@step_trailing_comment p line c S Hc). eauto.
  - intro Hc. rewrite (@step_trailing_comment_none p line S Hc). eauto.
Qed.

Lemma C1_trailing_comment_state_witness :
  let p := mkParser TRAILING_COMMENT (Some (str "K")) (Some (str "V"))
                    None None None in
  let line := comment_line (str "C") in
  parse_state p = TRAILING_COMMENT /\
  parse_comment line = Some (str "C") /\
  exists p',
    parse_line p line =
    Ok (p', Some (mkLocalizedString (Some (str "K")) (Some (str "V"))
                                    (Some (str "C")))) /\
    parse_state p' = COMMENT.
Proof.
  intros p line. split; [reflexivity|]. split; [reflexivity|].
  exact (proj1 (proj2 (@C1_trailing_comment_state p line eq_refl))
               (str "C") eq_refl).
Defined.

(** C2 (as stated, refuted): a fresh parser returns nothing on a full
    entry that no comment precedes. *)
Lemma C2_counterexample :
  parse_line init (entry_line (str "K") (str "V")) =
  Ok (set_comment_partial None init, None) /\
  ~ exists p',
      parse_line init (entry_line (str "K") (str "V")) =
      Ok (p', Some (mkLocalizedString (Some (str "K")) (Some (str "V")) None)).
Proof.
  assert (E : parse_line init (entry_line (str "K") (str "V")) =
              Ok (set_comment_partial None init, None))
    by (vm_compute; reflexivity).
  split; [exact E|]. intros [p' E']. rewrite E in E'. discriminate E'.
Qed.

(** C2 (amended): for every key [K] and value [V] (not empty, without
    double quote or line feed), [parse_line] on the full entry alone, on
    a fresh parser, returns nothing and leaves the parser in the initial
    state; the entry with key [K] and value [V] is returned, with the
    stored comment, when the line comes to a parser that is in the state
    [STRING], that is after a comment, and the parser goes back to
    [COMMENT]. *)
Theorem C2_single_line_entry K V :
  plain K = true -> plain V = true ->
  parse_line init (entry_line K V) = Ok (set_comment_partial None init, None) /\
  forall p,
    parse_state p = STRING ->
    exists p',
      parse_line p (entry_line K V) =
      Ok (p', Some (mkLocalizedString (Some K) (Some V) (comment p))) /\
      parse_state p' = COMMENT.
Proof.
  intros HK HV. split.
  - rewrite (@step_comment_none init (entry_line K V) eq_refl
               (@parse_trailing_comment_plain_entry K V HK HV)
               (@parse_comment_quote _ (entry_line_quote K V))
               (@parse_multiline_comment_start_quote _ (entry_line_quote K V))).
    reflexivity.
  - intros p S.
    rewrite (@step_string_entry p (entry_line K V) K V S
               (@parse_localized_pair_entry K V HK HV)).
    eauto.
Qed.

Lemma C2_single_line_entry_witness :
  plain (str "key1") = true /\ plain (str "value1") = true /\
  parse_line init (entry_line (str "key1") (str "value1")) =
  Ok (set_comment_partial None init, None).
Proof.
  split; [reflexivity|]. split; [reflexivity|].
  exact (proj1 (@C2_single_line_entry (str "key1") (str "value1")
                                      eq_refl eq_refl)).
Defined.

(** C3 (as stated, refuted): on a fresh parser the two lines of a
    multi-line value return nothing, neither of them. *)
Lemma C3_counterexample :
  (exists p,
     calls init [value_start_line (str "K") (str "V1");
                 value_end_line (str "V2")] =
     Ok (p, [None; None])) /\
  ~ exists p,
      calls init [value_start_line (str "K") (str "V1");
                  value_end_line (str "V2")] =
      Ok (p, [None;
              Some (mkLocalizedString (Some (str "K"))
                                      (Some (str "V1" ++ [lf] ++ str "V2"))
                                      None)]).
Proof.
  split.
  - eexists. vm_compute. reflexivity.
  - intros [p E]. vm_compute in E. discriminate E.
Qed.

(** C3 (amended): feeding a fresh parser a single-line comment, then
    the line that opens the value [V1] of the key [K], then the line
    that ends the value with [V2], returns exactly one entry, on the last
    of these lines and none before, with the key [K], the value [V1] and
    [V2] joined with a line feed, and the comment. *)
Theorem C3_multiline_value C K V1 V2 :
  oneline C = true -> plain K = true -> plain V1 = true -> plain V2 = true ->
  exists p,
    calls init [comment_line C; value_start_line K V1; value_end_line V2] =
    Ok (p, [None; None;
            Some (mkLocalizedString (Some K) (Some (V1 ++ [lf] ++ V2))
                                    (Some C))]) /\
    parse_state p = COMMENT.
Proof.
  intros HC HK HV1 HV2.
  fire step_comment_single. fire step_string_start. fire step_in_value_end.
  eexists. split; reflexivity.
Qed.

Lemma C3_multiline_value_witness :
  oneline (str "Comment4") = true /\ plain (str "KEY4") = true /\
  plain (str "VALUE4") = true /\ plain (str "VALUE4_LINE2") = true /\
  exists p,
    calls init [comment_line (str "Comment4");
                value_start_line (str "KEY4") (str "VALUE4");
                value_end_line (str "VALUE4_LINE2")] =
    Ok (p, [None; None;
            Some (mkLocalizedString
                    (Some (str "KEY4"))
                    (Some (str "VALUE4" ++ [lf] ++ str "VALUE4_LINE2"))
                    (Some (str "Comment4")))]) /\
    parse_state p = COMMENT.
Proof.
  repeat (split; [reflexivity|]).
  exact (@C3_multiline_value (str "Comment4") (str "KEY4") (str "VALUE4")
           (str "VALUE4_LINE2") eq_refl eq_refl eq_refl eq_refl).
Defined.

Lemma closes_sp L : closes (sp :: L) = closes L.
Proof. destruct L; reflexivity. Qed.

Lemma lacks_app c a b : lacks c (a ++ b) = lacks c a && lacks c b.
Proof. apply forallb_app. Qed.

Lemma middle_line L :
  lacks lf L = true ->
  parse_multiline_comment_line (sp :: L) = Some (sp :: L).
Proof.
  intro H. rewrite parse_multiline_comment_line_spec.
  assert (C : chomp (sp :: L) = sp :: L)
    by (apply chomp_id; simpl; now apply lacks_count).
  rewrite C. unfold oneline. simpl. now rewrite H.
Qed.

Lemma last_line L :
  lacks lf L = true ->
  parse_multiline_comment_end (sp :: L ++ str " */") = Some (sp :: L ++ [sp]).
Proof.
  intro H.
  replace (sp :: L ++ str " */") with (comment_end_line (sp :: L ++ [sp]))
    by (unfold comment_end_line; simpl; now rewrite <- app_assoc).
  apply parse_multiline_comment_end_comment_end.
  unfold oneline. simpl. rewrite lacks_app, H. reflexivity.
Qed.

(** C4: feeding a fresh parser the first line of a comment, [/* L1]
    with no closing of the comment in [L1], then a line [ L2] that does
    not close it either, then the line [ L3 */], then the full entry of
    [K] and [V], returns exactly one entry, on the fourth line: key [K],
    value [V], and as comment [L1], [ L2] and [ L3 ] as they stand,
    joined with line feeds. *)
Theorem C4_multiline_comment L1 L2 L3 K V :
  oneline L1 = true -> closes L1 = false ->
  lacks lf L2 = true -> closes L2 = false ->
  lacks lf L3 = true ->
  plain K = true -> plain V = true ->
  exists p,
    calls init [comment_start_line L1; sp :: L2; sp :: L3 ++ str " */";
                entry_line K V] =
    Ok (p, [None; None; None;
            Some (mkLocalizedString
                    (Some K) (Some V)
                    (Some (L1 ++ [lf] ++ [sp] ++ L2 ++ [lf] ++ [sp] ++ L3 ++
                           [sp])))]) /\
    parse_state p = COMMENT.
Proof.
  intros H1 C1 H2 C2 H3 HK HV.
  assert (E2 : parse_multiline_comment_end (sp :: L2) = None)
    by (apply parse_multiline_comment_end_open; now rewrite closes_sp).
  pose proof (middle_line L2 H2) as M2.
  pose proof (last_line L3 H3) as M3.
  fire step_comment_start. fire step_in_comment_line.
  fire step_in_comment_end.
  fire step_string_entry.
  rewrite <- !app_assoc. simpl.
  eexists. split; reflexivity.
Qed.

Lemma C4_multiline_comment_witness :
  oneline (str "Line 1") = true /\ closes (str "Line 1") = false /\
  lacks lf (str "Line 2") = true /\ closes (str "Line 2") = false /\
  lacks lf (str "Line 3") = true /\
  plain (str "key") = true /\ plain (str "value") = true /\
  exists p,
    calls init [str "/* Line 1"; str " Line 2"; str " Line 3 */";
                entry_line (str "key") (str "value")] =
    Ok (p, [None; None; None;
            Some (mkLocalizedString
                    (Some (str "key")) (Some (str "value"))
                    (Some (str "Line 1" ++ [lf] ++ str " Line 2" ++ [lf] ++
                           str " Line 3 ")))]) /\
    parse_state p = COMMENT.
Proof.
  repeat (split; [reflexivity|]).
  exact (@C4_multiline_comment (str "Line 1") (str "Line 2") (str "Line 3")
           (str "key") (str "value")
           eq_refl eq_refl eq_refl eq_refl eq_refl eq_refl eq_refl).
Defined.

(** C5 (as stated, refuted): inside a multi-line comment an empty line
    matches neither the end of the comment nor a line of it, and nothing
    is added to the stored text, no line feed either. *)
Lemma C5_counterexample :
  exists p p',
    calls init [comment_start_line (str "a")] = Ok (p, [None]) /\
    parse_state p = COMMENT_MULTILINE /\
    comment_partial p = Some (Some (str "a")) /\
    parse_multiline_comment_end [] = None /\
    parse_line p [] = Ok (p', None) /\
    comment_partial p' = Some (Some (str "a")) /\
    comment_partial p' <> Some (Some (str "a" ++ [lf] ++ [])).
Proof.
  do 2 eexists. vm_compute. repeat (split; [reflexivity|]). discriminate.
Qed.

(** C5 (amended): whenever the parser is in [COMMENT_MULTILINE], with
    the text [t] stored, and receives a line that does not match the
    multi-line comment end grammar, it returns nothing and stays in
    [COMMENT_MULTILINE]; the line, without the line feed that may end it,
    is added to [t] as it stands, after a line feed, if it is not empty
    and has no line feed inside; otherwise (a blank line) [t] is kept as
    it is. *)
Theorem C5_multiline_comment_continuation p t line :
  parse_state p = COMMENT_MULTILINE ->
  comment_partial p = Some (Some t) ->
  parse_multiline_comment_end line = None ->
  exists p',
    parse_line p line = Ok (p', None) /\
    parse_state p' = COMMENT_MULTILINE /\
    comment_partial p' =
    Some (Some (if oneline (chomp line)
                then t ++ [lf] ++ chomp line
                else t)).
Proof.
  intros S P E.
  pose proof (parse_multiline_comment_line_spec line) as M.
  destruct (oneline (chomp line)).
  - rewrite (@step_in_comment_line p line t (chomp line) S P E M).
    eexists. repeat split.
  - rewrite (@step_in_comment_skip p line S E M).
    eexists. repeat split; assumption.
Qed.

Lemma C5_multiline_comment_continuation_witness :
  let p := mkParser COMMENT_MULTILINE None None None
                    (Some (Some (str "Line 1"))) None in
  parse_state p = COMMENT_MULTILINE /\
  comment_partial p = Some (Some (str "Line 1")) /\
  parse_multiline_comment_end (str " Line 2") = None /\
  exists p',
    parse_line p (str " Line 2") = Ok (p', None) /\
    parse_state p' = COMMENT_MULTILINE /\
    comment_partial p' = Some (Some (str "Line 1" ++ [lf] ++ str " Line 2")).
Proof.
  intro p. repeat (split; [reflexivity|]).
  exact (@C5_multiline_comment_continuation p (str "Line 1") (str " Line 2")
           eq_refl eq_refl eq_refl).
Defined.

(** C6: feeding a fresh parser a single-line comment [C1], the full
    entry of [k1] and [v1], a single-line comment [C2] and the full entry
    of [k2] and [v2] returns exactly two entries, in this order: [k1],
    [v1], [C1] on the second line and [k2], [v2], [C2] on the fourth, and
    nothing on the lines of the comments. *)
Theorem C6_two_entries C1 k1 v1 C2 k2 v2 :
  oneline C1 = true -> plain k1 = true -> plain v1 = true ->
  oneline C2 = true -> plain k2 = true -> plain v2 = true ->
  exists p,
    calls init [comment_line C1; entry_line k1 v1;
                comment_line C2; entry_line k2 v2] =
    Ok (p, [None;
            Some (mkLocalizedString (Some k1) (Some v1) (Some C1));
            None;
            Some (mkLocalizedString (Some k2) (Some v2) (Some C2))]) /\
    parse_state p = COMMENT.
Proof.
  intros HC1 Hk1 Hv1 HC2 Hk2 Hv2.
  change [comment_line C1; entry_line k1 v1; comment_line C2; entry_line k2 v2]
    with ([comment_line C1; entry_line k1 v1] ++
          [comment_line C2; entry_line k2 v2]).
  rewrite calls_app,
    (@comment_then_entry init C1 k1 v1 eq_refl HC1 Hk1 Hv1).
  simpl.
  erewrite comment_then_entry by (first [reflexivity | assumption]).
  simpl. eexists. split; reflexivity.
Qed.

Lemma C6_two_entries_witness :
  oneline (str "C1") = true /\ plain (str "k1") = true /\
  plain (str "v1") = true /\ oneline (str "C2") = true /\
  plain (str "k2") = true /\ plain (str "v2") = true /\
  exists p,
    calls init [str "/* C1 */"; entry_line (str "k1") (str "v1");
                str "/* C2 */"; entry_line (str "k2") (str "v2")] =
    Ok (p, [None;
            Some (mkLocalizedString (Some (str "k1")) (Some (str "v1"))
                                    (Some (str "C1")));
            None;
            Some (mkLocalizedString (Some (str "k2")) (Some (str "v2"))
                                    (Some (str "C2")))]) /\
    parse_state p = COMMENT.
Proof.
  repeat (split; [reflexivity|]).
  exact (@C6_two_entries (str "C1") (str "k1") (str "v1")
           (str "C2") (str "k2") (str "v2")
           eq_refl eq_refl eq_refl eq_refl eq_refl eq_refl).
Defined.

(** C7: for every key [K], value [V] and comment [C] (not empty,
    without double quote or line feed), one call of [parse_line] on the
    full entry with its comment behind it, on a parser in the state
    [COMMENT], returns the entry of [K], [V] and [C] at once, and the
    parser is in the state [COMMENT] afterwards. *)
Theorem C7_entry_with_trailing_comment p K V C :
  parse_state p = COMMENT ->
  plain K = true -> plain V = true -> plain C = true ->
  exists p',
    parse_line p (entry_comment_line K V C) =
    Ok (p', Some (mkLocalizedString (Some K) (Some V) (Some C))) /\
    parse_state p' = COMMENT.
Proof.
  intros S HK HV HC.
  rewrite (@step_comment_entry p (entry_comment_line K V C) K V C S
             (@parse_trailing_comment_entry K V C HK HV HC)).
  eexists. split; reflexivity.
Qed.

Lemma C7_entry_with_trailing_comment_witness :
  parse_state init = COMMENT /\
  plain (str "KEY3") = true /\ plain (str "VALUE3") = true /\
  plain (str "Comment3") = true /\
  exists p',
    parse_line init
      (entry_comment_line (str "KEY3") (str "VALUE3") (str "Comment3")) =
    Ok (p', Some (mkLocalizedString (Some (str "KEY3")) (Some (str "VALUE3"))
                                    (Some (str "Comment3")))) /\
    parse_state p' = COMMENT.
Proof.
  repeat (split; [reflexivity|]).
  exact (@C7_entry_with_trailing_comment init (str "KEY3") (str "VALUE3")
           (str "Comment3") eq_refl eq_refl eq_refl eq_refl).
Defined.

Lemma no_match_pair line :
  re_match LOCALIZED_STRING_EXPR line = None ->
  parse_localized_pair line = (None, None).
Proof. unfold parse_localized_pair. now intros ->. Qed.

Lemma no_match_start line :
  re_match LOCALIZED_STRING_MULTILINE_START_EXPR line = None ->
  parse_multiline_start line = (None, None).
Proof. unfold parse_multiline_start. now intros ->. Qed.

(** C8: in the state [STRING] a line that matches neither the full
    entry grammar nor the multi-line value start grammar returns nothing,
    leaves the parser in the state [STRING] and leaves the stored comment
    as it is: the next line that is a full entry, of whatever key and
    value, is returned with that comment. *)
Theorem C8_skipped_line_keeps_comment p line :
  parse_state p = STRING ->
  re_match LOCALIZED_STRING_EXPR line = None ->
  re_match LOCALIZED_STRING_MULTILINE_START_EXPR line = None ->
  exists p',
    parse_line p line = Ok (p', None) /\
    parse_state p' = STRING /\
    comment p' = comment p /\
    forall line' k v,
      parse_localized_pair line' = (Some k, Some v) ->
      exists p'',
        parse_line p' line' =
        Ok (p'', Some (mkLocalizedString (Some k) (Some v) (comment p))).
Proof.
  intros S E1 E2.
  rewrite (@step_string_none p line S (no_match_pair line E1)
             (no_match_start line E2)).
  eexists. split; [reflexivity|]. split; [reflexivity|].
  split; [reflexivity|].
  intros line' k v E.
  erewrite step_string_entry by (first [reflexivity | exact E]). eauto.
Qed.

Lemma C8_skipped_line_keeps_comment_witness :
  let p := mkParser STRING None None (Some (str "Comment1")) None None in
  parse_state p = STRING /\
  re_match LOCALIZED_STRING_EXPR (str "    ") = None /\
  re_match LOCALIZED_STRING_MULTILINE_START_EXPR (str "    ") = None /\
  exists p',
    parse_line p (str "    ") = Ok (p', None) /\
    parse_state p' = STRING /\
    comment p' = Some (str "Comment1") /\
    forall line' k v,
      parse_localized_pair line' = (Some k, Some v) ->
      exists p'',
        parse_line p' line' =
        Ok (p'', Some (mkLocalizedString (Some k) (Some v)
                                         (Some (str "Comment1")))).
Proof.
  intro p. repeat (split; [reflexivity|]).
  exact (@C8_skipped_line_keeps_comment p (str "    ")
           eq_refl eq_refl eq_refl).
Defined.

(** C9: whatever lines a fresh parser has been given, every one of the
    calls has returned, an entry or nothing, and the next call, on any
    line, returns as well, an entry or nothing: [parse_line] raises no
    exception. *)
Theorem C9_parse_line_never_raises lines line :
  exists p rs p' r,
    calls init lines = Ok (p, rs) /\ parse_line p line = Ok (p', r).
Proof.
  destruct (@calls_sane lines init init_sane) as [p [rs [E [S _]]]].
  destruct (@step_sane p line S) as [p' [r [E' _]]].
  exists p, rs, p', r. split; assumption.
Qed.

Lemma calls_snoc_pending lines line p rs :
  calls init (lines ++ [line]) = Ok (p, rs) ->
  parse_state p <> COMMENT ->
  exists p0 rs0, calls init lines = Ok (p0, rs0) /\ rs = rs0 ++ [None].
Proof.
  intros E N. rewrite calls_app in E.
  destruct (@calls_sane lines init init_sane) as [p0 [rs0 [E0 [S0 _]]]].
  rewrite E0 in E. simpl in E. rewrite calls_cons in E.
  destruct (@step_sane p0 line S0) as [p1 [r [E1 [_ R]]]].
  rewrite E1 in E. simpl in E. inversion E; subst.
  exists p0, rs0. split; [exact E0|].
  destruct r as [e|]; [|reflexivity].
  now destruct (R e eq_refl) as [_ C].
Qed.

Lemma parse_file_entries lines p rs :
  calls init lines = Ok (p, rs) ->
  parse_file lines =
  Ok (fold_left (fun d e => dict_set d (ls_key e) (ls_value e))
                (entries rs) []).
Proof.
  intro E. unfold parse_file. rewrite parse_file_loop_calls, E. reflexivity.
Qed.

(** C10: every entry the calls return, from a fresh parser on, has its
    key and its value (neither is [None]).  When the lines end with the
    parser in another state than [COMMENT], that is inside a comment or
    a value or with a comment waiting for its entry, the last line
    returned nothing and nothing comes after it: the entries, and the
    dictionary of [parse_file], are those of the lines before it, and
    what the parser holds is lost. *)
Theorem C10_entries_resolved_and_dangling_lost lines p rs :
  calls init lines = Ok (p, rs) ->
  Forall resolved (entries rs) /\
  (parse_state p <> COMMENT ->
   exists lines' line p0 rs0,
     lines = lines' ++ [line] /\
     calls init lines' = Ok (p0, rs0) /\
     rs = rs0 ++ [None] /\
     entries rs = entries rs0 /\
     parse_file lines = parse_file lines').
Proof.
  intro E. split.
  - destruct (@calls_sane lines init init_sane) as [p' [rs' [E' [_ F]]]].
    rewrite E in E'. inversion E'; subst. exact F.
  - intro N.
    destruct lines as [|l lines'] using rev_ind.
    + inversion E; subst. now destruct N.
    + clear IHlines'.
      destruct (calls_snoc_pending lines' l E N) as [p0 [rs0 [E0 R]]].
      exists lines', l, p0, rs0.
      assert (X : entries rs = entries rs0)
        by (rewrite R, entries_app; simpl; apply app_nil_r).
      repeat split; try assumption.
      now rewrite (parse_file_entries _ E), (parse_file_entries _ E0), X.
Qed.

Lemma C10_entries_resolved_and_dangling_lost_witness :
  let lines := [comment_line (str "Comment4");
                value_start_line (str "KEY4") (str "VALUE4")] in
  let p := mkParser STRING_MULTILINE (Some (str "KEY4")) None
                    (Some (str "Comment4")) None
                    (Some (Some (str "VALUE4"))) in
  calls init lines = Ok (p, [None; None]) /\
  Forall resolved (entries [None; None]) /\
  parse_file lines = Ok [] /\
  exists lines' line p0 rs0,
    lines = lines' ++ [line] /\
    calls init lines' = Ok (p0, rs0) /\
    [None; None] = rs0 ++ [None] /\
    entries [None; None] = entries rs0 /\
    parse_file lines = parse_file lines'.
Proof.
  intros lines p.
  assert (E : calls init lines = Ok (p, [None; None])) by reflexivity.
  split; [exact E|].
  split; [exact (proj1 (@C10_entries_resolved_and_dangling_lost
                          lines p [None; None] E))|].
  split; [reflexivity|].
  apply (proj2 (@C10_entries_resolved_and_dangling_lost
                  lines p [None; None] E)).
  discriminate.
Defined.

(* ================================================================== *)
(** ** More about the line grammar *)

Unset Implicit Arguments.

Module GrammarMore.
Import ReFacts TextFacts GrammarFacts.

Lemma matches_caps r a b :
  matches r a b ->
  groups_of_a_line r = true ->
  exists new,
    caps b = new ++ caps a /\
    Forall (fun nt => oneline (snd nt) = true) new.
Proof.
  induction 1 as [st|s c|p s c E|t p s c|q cs w p s c F Q
                  |r1 r2 a b d M1 IH1 M2 IH2|n r p w s c c' M IH];
    intro G; simpl in *;
    try (exists []; split; [reflexivity | constructor]).
  - apply andb_true_iff in G. destruct G as [G1 G2].
    destruct (IH1 G1) as [n1 [E1 F1]], (IH2 G2) as [n2 [E2 F2]].
    exists (n2 ++ n1). rewrite E2, E1, app_assoc. split; [reflexivity|].
    apply Forall_app. auto.
  - destruct r as [| | | |q cs| |]; try discriminate G.
    destruct q; try discriminate G. destruct cs; try discriminate G.
    apply matches_rep in M. destruct M as [w' [s' [E [F [Q S]]]]].
    inversion S; subst.
    assert (w' = w) by (apply (app_inv_tail s'); congruence). subst w'.
    exists [(n, w)]. split; [reflexivity|].
    constructor; [|constructor]. simpl. now apply oneline_intro.
Qed.

Lemma group_in m name t : group m name = Some t -> In (name, t) m.
Proof.
  induction m as [|[n u] m IH]; simpl; [discriminate|].
  destruct (String.eqb n name) eqn:E.
  - intro H. inversion H; subst. apply String.eqb_eq in E. subst. now left.
  - intro H. right. auto.
Qed.

Lemma re_match_field r line m name :
  groups_of_a_line r = true ->
  re_match r line = Some m ->
  field_ok (group m name).
Proof.
  intros G E. apply re_match_sound in E. destruct E as [st' [M <-]].
  destruct (matches_caps _ _ _ M G) as [new [E F]]. simpl in E.
  rewrite app_nil_r in E. rewrite E.
  destruct (group new name) as [t|] eqn:Gt; [|exact I].
  apply group_in in Gt. rewrite Forall_forall in F. exact (F _ Gt).
Qed.

Ltac field :=
  match goal with
  | |- field_ok ?x =>
      let E := fresh "E" in
      first [ progress unfold parse_comment, parse_multiline_comment_start,
                parse_multiline_comment_line, parse_multiline_comment_end,
                parse_multiline_line, parse_multiline_end,
                parse_localized_pair, parse_multiline_start,
                parse_trailing_comment ];
      match goal with
      | |- context [re_match ?r ?l] =>
          destruct (re_match r l) eqn:E;
          [ simpl; eapply re_match_field; [ | exact E ]; reflexivity
          | exact I ]
      end
  end.

Lemma parsed_fields line :
  field_ok (parse_comment line) /\
  field_ok (parse_multiline_comment_start line) /\
  field_ok (parse_multiline_comment_line line) /\
  field_ok (parse_multiline_comment_end line) /\
  field_ok (parse_multiline_line line) /\
  field_ok (parse_multiline_end line) /\
  field_ok (fst (parse_localized_pair line)) /\
  field_ok (snd (parse_localized_pair line)) /\
  field_ok (fst (parse_multiline_start line)) /\
  field_ok (snd (parse_multiline_start line)) /\
  field_ok (fst (fst (parse_trailing_comment line))) /\
  field_ok (snd (fst (parse_trailing_comment line))) /\
  field_ok (snd (parse_trailing_comment line)).
Proof. repeat split; field. Qed.

Lemma pair_all_or_none line :
  parse_localized_pair line = (None, None) \/
  exists k v, parse_localized_pair line = (Some k, Some v).
Proof.
  unfold parse_localized_pair.
  destruct (re_match LOCALIZED_STRING_EXPR line) eqn:E; [right | now left].
  apply re_match_sound in E. destruct E as [st' [M <-]].
  open_pattern LOCALIZED_STRING_EXPR M. eauto.
Qed.

Lemma start_all_or_none line :
  parse_multiline_start line = (None, None) \/
  exists k v, parse_multiline_start line = (Some k, Some v).
Proof.
  unfold parse_multiline_start.
  destruct (re_match LOCALIZED_STRING_MULTILINE_START_EXPR line) eqn:E;
    [right | now left].
  apply re_match_sound in E. destruct E as [st' [M <-]].
  open_pattern LOCALIZED_STRING_MULTILINE_START_EXPR M. eauto.
Qed.

Lemma trailing_all_or_none line :
  parse_trailing_comment line = (None, None, None) \/
  exists k v c, parse_trailing_comment line = (Some k, Some v, Some c).
Proof.
  unfold parse_trailing_comment.
  destruct (re_match LOCALIZED_STRING_TRAILING_COMMENT_EXPR line) eqn:E;
    [right | now left].
  apply re_match_sound in E. destruct E as [st' [M <-]].
  open_pattern LOCALIZED_STRING_TRAILING_COMMENT_EXPR M. eauto.
Qed.

(** *** Lines that are no entry *)

Lemma parse_localized_pair_no_quote line :
  begins_with dq line = false -> parse_localized_pair line = (None, None).
Proof.
  intro B. unfold parse_localized_pair.
  rewrite re_match_none; [reflexivity|].
  intros st' H. open_pattern LOCALIZED_STRING_EXPR H.
  simpl in B. discriminate B.
Qed.

Lemma parse_multiline_start_no_quote line :
  begins_with dq line = false -> parse_multiline_start line = (None, None).
Proof.
  intro B. unfold parse_multiline_start.
  rewrite re_match_none; [reflexivity|].
  intros st' H. open_pattern LOCALIZED_STRING_MULTILINE_START_EXPR H.
  simpl in B. discriminate B.
Qed.

(** A line without a quote does not end a value. *)
Lemma parse_multiline_end_no_quote line :
  lacks dq line = true -> parse_multiline_end line = None.
Proof.
  intro L. apply lacks_count in L. unfold parse_multiline_end.
  rewrite re_match_none; [reflexivity|].
  intros st' H. open_pattern LOCALIZED_STRING_MULTILINE_END_EXPR H.
  count_norm L. lia.
Qed.

Lemma oneline_chomp t : oneline t = true -> chomp t = t.
Proof. intro H. apply oneline_inv in H. now apply chomp_id. Qed.

Lemma parse_multiline_line_oneline t :
  oneline t = true -> parse_multiline_line t = Some t.
Proof.
  intro H. rewrite parse_multiline_line_spec, (oneline_chomp t H). now rewrite H.
Qed.

Lemma parse_multiline_comment_line_oneline t :
  oneline t = true -> parse_multiline_comment_line t = Some t.
Proof.
  intro H. rewrite parse_multiline_comment_line_spec, (oneline_chomp t H).
  now rewrite H.
Qed.

(** *** A full entry with its comment, where a full entry is looked for *)

Lemma parse_localized_pair_entry_comment K V C :
  plain K = true -> plain V = true -> plain C = true ->
  parse_localized_pair (entry_comment_line K V C) = (None, None).
Proof.
  intros HK HV HC. unfold parse_localized_pair.
  rewrite re_match_none; [reflexivity|].
  intros st' H. plain_hyps.
  open_pattern LOCALIZED_STRING_EXPR H.
  match goal with E : entry_comment_line _ _ _ = _ |- _ => rename E into E0 end.
  unfold entry_comment_line in E0. flat E0. peel E0.
  assert (Q := f_equal (count dq) E0). count_norm Q.
  apply split_at in E0; [|lia|lia]. destruct E0 as [<- E0].
  opt_cases; simpl in E0; peel E0.
  all: apply split_at in E0; [|lia|lia]; destruct E0 as [<- E0].
  all: simpl in E0; peel E0.
  all: match goal with
       | F : ?z = [] \/ ?z = [lf] |- _ =>
           destruct F as [F|F]; rewrite F in E0; discriminate E0
       end.
Qed.

Lemma first_occurrence c : forall x,
  1 <= count c x ->
  exists a b, x = a ++ c :: b /\ count c a = 0.
Proof.
  induction x as [|u x IH]; simpl; intro H; [lia|].
  destruct (Ascii.eqb u c) eqn:E.
  - apply Ascii.eqb_eq in E. subst. exists [], x. auto.
  - destruct (IH H) as [a [b [-> Ca]]].
    exists (u :: a), b. simpl. rewrite E. auto.
Qed.

Lemma entry_comment_as_start_unique K V C st' :
  plain K = true -> plain V = true -> plain C = true ->
  lacks "="%char V = true ->
  matches LOCALIZED_STRING_MULTILINE_START_EXPR
          (MState 0 (entry_comment_line K V C) []) st' ->
  caps st' =
  [("value"%string, V ++ [dq] ++ str "; /* " ++ C ++ str " */");
   ("key"%string, K)].
Proof.
  intros HK HV HC HE H. plain_hyps. apply lacks_count in HE.
  open_pattern LOCALIZED_STRING_MULTILINE_START_EXPR H.
  match goal with E : entry_comment_line _ _ _ = _ |- _ => rename E into E0 end.
  unfold entry_comment_line in E0. flat E0. peel E0.
  assert (Q := f_equal (count dq) E0). count_norm Q.
  assert (L := f_equal (count lf) E0). count_norm L.
  match type of E0 with
  | _ = ?x0 ++ _ => destruct (Nat.eq_dec (count dq x0) 0) as [Z|Z]
  end.
  - apply split_at in E0; [|lia|lia]. destruct E0 as [<- E0].
    opt_cases; simpl in E0; peel E0.
    all: match goal with
         | F : ?z = [] \/ ?z = [lf] |- _ => destruct F as [F|F]; rewrite F in *
         end.
    all: try (rewrite app_nil_r in E0; rewrite <- E0; reflexivity).
    all: exfalso; simpl in L; lia.
  - exfalso.
    match type of E0 with
    | _ = ?x0 ++ _ =>
        destruct (@first_occurrence dq x0 ltac:(lia)) as [a [b [-> Ca]]]
    end.
    rewrite <- app_assoc in E0. simpl in E0.
    rewrite count_app in Q. simpl in Q.
    apply split_at in E0; [|lia|lia]. destruct E0 as [<- E0].
    change (" "%char :: "="%char :: " "%char :: dq :: ?r)
      with ([" "%char; "="%char; " "%char] ++ dq :: r) in E0.
    apply split_at in E0; [|reflexivity|lia]. destruct E0 as [<- E0].
    match type of E0 with
    | _ = ?x1 ++ "="%char :: ?x2 ++ dq :: ?r =>
        change (x1 ++ "="%char :: x2 ++ dq :: r)
          with (x1 ++ ("="%char :: x2) ++ dq :: r) in E0;
        rewrite app_assoc in E0;
        apply split_at in E0;
        [ | lia | rewrite count_app; simpl; lia ];
        destruct E0 as [E0 _]
    end.
    rewrite E0, count_app in HE. simpl in HE. lia.
Qed.

Lemma entry_comment_as_start_exists K V C :
  plain K = true -> plain V = true -> plain C = true ->
  exists st', matches LOCALIZED_STRING_MULTILINE_START_EXPR
                      (MState 0 (entry_comment_line K V C) []) st'.
Proof.
  intros HK HV HC.
  assert (D : all_in CDot (V ++ [dq] ++ str "; /* " ++ C ++ str " */")).
  { plain_hyps. repeat (apply Forall_app; split); try assumption;
      repeat constructor. }
  assert (N : 1 <= length (V ++ [dq] ++ str "; /* " ++ C ++ str " */")).
  { rewrite length_app. simpl. lia. }
  plain_hyps.
  eexists. unfold LOCALIZED_STRING_MULTILINE_START_EXPR, seq, fold_right.
  replace (entry_comment_line K V C) with
    ([dq] ++ K ++ [dq] ++ [sp] ++ str "=" ++ [sp] ++ [dq] ++
     (V ++ [dq] ++ str "; /* " ++ C ++ str " */") ++ [])
    by (unfold entry_comment_line; now rewrite app_nil_r).
  build_match.
Qed.

(** After a comment a full entry with its own comment behind it is
    read as the first line of a value. *)
Lemma parse_multiline_start_entry_comment K V C :
  plain K = true -> plain V = true -> plain C = true ->
  lacks "="%char V = true ->
  parse_multiline_start (entry_comment_line K V C) =
  (Some K, Some (V ++ [dq] ++ str "; /* " ++ C ++ str " */")).
Proof.
  intros HK HV HC HE. unfold parse_multiline_start.
  now rewrite (re_match_the
                 (entry_comment_as_start_exists K V C HK HV HC)
                 (fun st' =>
                    @entry_comment_as_start_unique K V C st' HK HV HC HE)).
Qed.

(** *** The end of a value, whatever is before the quote *)

Lemma space_or_lf_only x z :
  all_in (CChar sp) x -> z = [] \/ z = [lf] ->
  Forall (fun c => c = sp \/ c = lf) (x ++ z).
Proof.
  intros F Z. apply Forall_app. split.
  - eapply Forall_impl; [|exact F]. simpl. intros a Ha.
    apply Ascii.eqb_eq in Ha. now left.
  - destruct Z as [->| ->]; [constructor|].
    constructor; [now right | constructor].
Qed.

Lemma any_value_end_unique X st' :
  oneline X = true ->
  matches LOCALIZED_STRING_MULTILINE_END_EXPR
          (MState 0 (value_end_line X) []) st' ->
  caps st' = [("value"%string, X)].
Proof.
  intros HX H. plain_hyps.
  open_pattern LOCALIZED_STRING_MULTILINE_END_EXPR H.
  match goal with E : value_end_line _ = _ |- _ => rename E into E0 end.
  unfold value_end_line in E0.
  match type of E0 with
  | _ = ?x0 ++ [dq] ++ ?x1 ++ _ ++ ?x2 ++ ?z =>
      assert (E1 : X ++ [dq] = x0 ++ [dq] ++ x1 /\ x2 ++ z = [])
  end.
  { apply (@tail_unique (fun c => c = sp \/ c = lf) [] ";"%char).
    - now apply space_or_lf_only.
    - intros [N|N]; discriminate N.
    - simpl. rewrite <- !app_assoc. exact E0. }
  destruct E1 as [E1 _].
  opt_cases.
  all: try (rewrite app_nil_r in E1; apply app_inj_tail in E1;
            destruct E1 as [<- _]; reflexivity).
  all: exfalso; rewrite app_assoc in E1; apply app_inj_tail in E1;
    destruct E1 as [_ E1]; subst;
    match goal with
    | F : all_in (CChar sp) [dq] |- _ =>
        inversion F as [|? ? Hc ?]; discriminate Hc
    end.
Qed.

Lemma any_value_end_exists X :
  oneline X = true ->
  exists st', matches LOCALIZED_STRING_MULTILINE_END_EXPR
                      (MState 0 (value_end_line X) []) st'.
Proof.
  intros HX. plain_hyps.
  eexists. unfold LOCALIZED_STRING_MULTILINE_END_EXPR, seq, fold_right.
  change (value_end_line X) with (X ++ [dq] ++ [] ++ str ";" ++ [] ++ []).
  build_match.
Qed.

Lemma parse_multiline_end_any X :
  oneline X = true -> parse_multiline_end (value_end_line X) = Some X.
Proof.
  intros HX. unfold parse_multiline_end.
  now rewrite (re_match_the (any_value_end_exists X HX)
                            (fun st' => @any_value_end_unique X st' HX)).
Qed.

End GrammarMore.
Import GrammarMore.

(** X1: whatever the line, a field that one of the nine [parse_*]
    functions returns is a text that is not empty and has no line feed
    in it. *)
Theorem X1_parsed_fields_on_one_line line :
  field_ok (parse_comment line) /\
  field_ok (parse_multiline_comment_start line) /\
  field_ok (parse_multiline_comment_line line) /\
  field_ok (parse_multiline_comment_end line) /\
  field_ok (parse_multiline_line line) /\
  field_ok (parse_multiline_end line) /\
  field_ok (fst (parse_localized_pair line)) /\
  field_ok (snd (parse_localized_pair line)) /\
  field_ok (fst (parse_multiline_start line)) /\
  field_ok (snd (parse_multiline_start line)) /\
  field_ok (fst (fst (parse_trailing_comment line))) /\
  field_ok (snd (fst (parse_trailing_comment line))) /\
  field_ok (snd (parse_trailing_comment line)).
Proof. exact (parsed_fields line). Qed.

(** X2: the three [parse_*] functions that return several fields return
    all of them or none: the tests of [parse_line] that the key and the
    value (and the comment) are not [None] are tests that the line
    matches. *)
Theorem X2_fields_all_or_none line :
  (parse_localized_pair line = (None, None) \/
   exists k v, parse_localized_pair line = (Some k, Some v)) /\
  (parse_multiline_start line = (None, None) \/
   exists k v, parse_multiline_start line = (Some k, Some v)) /\
  (parse_trailing_comment line = (None, None, None) \/
   exists k v c, parse_trailing_comment line = (Some k, Some v, Some c)).
Proof.
  split; [apply pair_all_or_none|].
  split; [apply start_all_or_none | apply trailing_all_or_none].
Qed.

(* ================================================================== *)
(** ** More about the state machine *)

Module ParserMore.
Import ReFacts TextFacts GrammarFacts ParserFacts GrammarMore.

#[local] Arguments parse_trailing_comment : simpl never.
#[local] Arguments parse_comment : simpl never.
#[local] Arguments parse_multiline_comment_start : simpl never.
#[local] Arguments parse_multiline_comment_end : simpl never.
#[local] Arguments parse_multiline_comment_line : simpl never.
#[local] Arguments parse_localized_pair : simpl never.
#[local] Arguments parse_multiline_start : simpl never.
#[local] Arguments parse_multiline_end : simpl never.
#[local] Arguments parse_multiline_line : simpl never.

Lemma oneline_nonempty t : oneline t = true -> t <> [].
Proof. destruct t; [discriminate | discriminate]. Qed.

Lemma joined_nonempty (t e : text) : t ++ lf :: e <> [].
Proof. destruct t; discriminate. Qed.

Ltac full_done :=
  do 2 eexists; (split; [reflexivity|]); split;
  [ unfold full, filled; simpl;
    repeat split; eauto using oneline_nonempty, joined_nonempty
  | let e := fresh "e" in let Ee := fresh "Ee" in
    intros e Ee; inversion Ee; subst; unfold complete, filled; simpl;
    repeat split; eauto using oneline_nonempty, joined_nonempty ].

Lemma step_full p line :
  full p ->
  exists p' r,
    parse_line p line = Ok (p', r) /\ full p' /\
    (forall e, r = Some e -> complete e).
Proof.
  destruct (parsed_fields line)
    as [F1 [F2 [F3 [F4 [F5 [F6 [F7 [F8 [F9 [F10 [F11 [F12 F13]]]]]]]]]]]].
  destruct p as [s k v c cp vp]. unfold full. simpl.
  intro S. destruct s; unfold parse_line; simpl.
  - destruct (trailing_all_or_none line) as [E|[k' [v' [c' E]]]];
      rewrite E in *; simpl in *.
    + destruct (parse_comment line) as [c'|]; simpl in *; [full_done|].
      destruct (parse_multiline_comment_start line) as [t|]; simpl in *;
        full_done.
    + full_done.
  - destruct S as [c0 [-> Hc]].
    destruct (pair_all_or_none line) as [E|[k' [v' E]]];
      rewrite E in *; simpl in *; [|full_done].
    destruct (start_all_or_none line) as [E'|[k' [v' E']]];
      rewrite E' in *; simpl in *; full_done.
  - contradiction.
  - destruct S as [[c0 [-> Hc]] [[k0 [-> Hk]] [t [-> Ht]]]]. simpl.
    destruct (parse_multiline_end line) as [e|]; simpl in *; [full_done|].
    destruct (parse_multiline_line line) as [l|]; simpl in *; full_done.
  - destruct S as [t [-> Ht]]. simpl.
    destruct (parse_multiline_comment_end line) as [e|]; simpl in *;
      [full_done|].
    destruct (parse_multiline_comment_line line) as [l|]; simpl in *;
      full_done.
Qed.

Lemma calls_full lines : forall p,
  full p ->
  exists p' rs,
    calls p lines = Ok (p', rs) /\ full p' /\ Forall complete (entries rs).
Proof.
  induction lines as [|line lines IH]; intros p S.
  - exists p, []. repeat split; [assumption | constructor].
  - rewrite calls_cons.
    destruct (@step_full p line S) as [p1 [r [E [S1 R]]]]. rewrite E. simpl.
    destruct (IH p1 S1) as [p2 [rs [E2 [S2 F]]]]. rewrite E2. simpl.
    exists p2, (r :: rs). repeat split; [assumption|].
    destruct r as [e|]; simpl; [|assumption].
    constructor; [|assumption]. exact (R e eq_refl).
Qed.

End ParserMore.
Import ParserMore.

(** X3: every entry that the calls of [parse_line] return, from a
    fresh parser on and whatever the lines, has a key that is not empty
    and has no line feed, a value that is not empty and a comment that
    is not empty: no entry is returned without a comment. *)
Theorem X3_every_entry_has_a_comment lines :
  exists p rs,
    calls init lines = Ok (p, rs) /\ Forall complete (entries rs).
Proof.
  destruct (@calls_full lines init I) as [p [rs [E [_ F]]]]. eauto.
Qed.

Module LinesFacts.
Import ReFacts TextFacts GrammarFacts ParserFacts GrammarMore ParserMore.

#[local] Arguments parse_trailing_comment : simpl never.
#[local] Arguments parse_comment : simpl never.
#[local] Arguments parse_multiline_comment_start : simpl never.
#[local] Arguments parse_multiline_comment_end : simpl never.
#[local] Arguments parse_multiline_comment_line : simpl never.
#[local] Arguments parse_localized_pair : simpl never.
#[local] Arguments parse_multiline_start : simpl never.
#[local] Arguments parse_multiline_end : simpl never.
#[local] Arguments parse_multiline_line : simpl never.

Lemma step_in_value_line p line t l :
  parse_state p = STRING_MULTILINE ->
  value_partial p = Some (Some t) ->
  parse_multiline_end line = None ->
  parse_multiline_line line = Some l ->
  parse_line p line =
  Ok (mkParser STRING_MULTILINE (key p) (value p) (comment p)
               (comment_partial p) (Some (Some (t ++ [lf] ++ l))),
      None).
Proof. step. Qed.

Lemma step_in_value_skip p line :
  parse_state p = STRING_MULTILINE ->
  parse_multiline_end line = None ->
  parse_multiline_line line = None ->
  parse_line p line = Ok (p, None).
Proof. step. Qed.

(** In the state [STRING] a line that does not begin with a quote is
    passed over. *)
Lemma step_string_no_quote p line :
  parse_state p = STRING ->
  begins_with dq line = false ->
  parse_line p line =
  Ok (mkParser STRING None None (comment p) (comment_partial p) (Some None),
      None).
Proof.
  intros S B. apply step_string_none; [assumption | |].
  - now apply parse_localized_pair_no_quote.
  - now apply parse_multiline_start_no_quote.
Qed.

Lemma calls_after p lines rs p' rest :
  calls p lines = Ok (p', rs) ->
  calls p (lines ++ rest) =
  (r <- calls p' rest ;; Ok (fst r, rs ++ snd r)).
Proof. intro E. rewrite calls_app, E. reflexivity. Qed.

Lemma junk_passed junk : forall p,
  parse_state p = STRING ->
  forallb (fun l => negb (begins_with dq l)) junk = true ->
  exists p',
    calls p junk = Ok (p', nones junk) /\
    parse_state p' = STRING /\ comment p' = comment p.
Proof.
  induction junk as [|l junk IH]; intros p S F.
  - exists p. repeat split. assumption.
  - simpl in F. apply andb_true_iff in F. destruct F as [B F].
    apply negb_true_iff in B.
    rewrite calls_cons, (@step_string_no_quote p l S B). simpl.
    destruct (IH (mkParser STRING None None (comment p) (comment_partial p)
                           (Some None)) eq_refl F) as [p' [E [S' C']]].
    rewrite E. simpl. exists p'. repeat split; assumption.
Qed.

(** The lines of a value between its first and its last. *)
Lemma value_lines_added mids : forall k v c cp t,
  forallb plain mids = true ->
  calls (mkParser STRING_MULTILINE k v c cp (Some (Some t))) mids =
  Ok (mkParser STRING_MULTILINE k v c cp
               (Some (Some (fold_left (fun a m => a ++ [lf] ++ m) mids t))),
      nones mids).
Proof.
  induction mids as [|m mids IH]; intros k v c cp t F; [reflexivity|].
  simpl in F. apply andb_true_iff in F. destruct F as [Pm F].
  assert (Lm : lacks dq m = true).
  { unfold plain in Pm. apply andb_true_iff in Pm. destruct Pm as [Pm _].
    apply andb_true_iff in Pm. now destruct Pm. }
  pose proof (parse_multiline_end_no_quote m Lm) as E1.
  pose proof (parse_multiline_line_oneline m (plain_oneline m Pm)) as E2.
  rewrite calls_cons.
  erewrite step_in_value_line by (first [reflexivity | eassumption]).
  simpl. pose proof (IH k v c cp (t ++ [lf] ++ m) F) as E.
  simpl in E. unfold text in *. rewrite E. reflexivity.
Qed.

(** The lines of a comment between its first and its last. *)
Lemma comment_lines_added mids : forall k v c vp t,
  forallb (fun m => oneline m && negb (closes m)) mids = true ->
  calls (mkParser COMMENT_MULTILINE k v c (Some (Some t)) vp) mids =
  Ok (mkParser COMMENT_MULTILINE k v c
               (Some (Some (fold_left (fun a m => a ++ [lf] ++ m) mids t))) vp,
      nones mids).
Proof.
  induction mids as [|m mids IH]; intros k v c vp t F; [reflexivity|].
  simpl in F. apply andb_true_iff in F. destruct F as [Pm F].
  apply andb_true_iff in Pm. destruct Pm as [Om Cm].
  apply negb_true_iff in Cm.
  pose proof (parse_multiline_comment_end_open m Cm) as E1.
  pose proof (parse_multiline_comment_line_oneline m Om) as E2.
  rewrite calls_cons.
  erewrite step_in_comment_line by (first [reflexivity | eassumption]).
  simpl. pose proof (IH k v c vp (t ++ [lf] ++ m) F) as E.
  simpl in E. unfold text in *. rewrite E. reflexivity.
Qed.

Lemma join_lf_cons t u ts : join_lf (t :: u :: ts) = t ++ [lf] ++ join_lf (u :: ts).
Proof. reflexivity. Qed.

Lemma join_lf_head t m l :
  join_lf ((t ++ [lf] ++ m) :: l) = t ++ [lf] ++ join_lf (m :: l).
Proof.
  destruct l as [|x l]; [reflexivity|].
  rewrite !join_lf_cons. now rewrite <- !app_assoc.
Qed.

Lemma fold_join mids : forall t last,
  fold_left (fun a m => a ++ [lf] ++ m) mids t ++ [lf] ++ last =
  join_lf (t :: mids ++ [last]).
Proof.
  induction mids as [|m mids IH]; intros t last; [reflexivity|].
  cbn [fold_left]. rewrite (IH (t ++ [lf] ++ m) last).
  change ((m :: mids) ++ [last]) with (m :: mids ++ [last]).
  apply join_lf_head.
Qed.

End LinesFacts.
Import LinesFacts.

#[local] Hint Resolve
  parse_localized_pair_no_quote parse_multiline_start_no_quote
  parse_multiline_end_no_quote parse_multiline_line_oneline
  parse_multiline_comment_line_oneline parse_localized_pair_entry_comment
  parse_multiline_start_entry_comment parse_multiline_end_any
  : grammar.

(** X4: whenever the parser is in [STRING_MULTILINE], with the text
    [t] of the value stored, and receives a line that does not match the
    multi-line value end grammar, it returns nothing and stays in
    [STRING_MULTILINE] with the key and the comment as they were; the
    line, without the line feed that may end it, is added to [t] after
    a line feed if it is not empty and has no line feed inside, and a
    blank line adds nothing. *)
Theorem X4_multiline_value_continuation p t line :
  parse_state p = STRING_MULTILINE ->
  value_partial p = Some (Some t) ->
  parse_multiline_end line = None ->
  exists p',
    parse_line p line = Ok (p', None) /\
    parse_state p' = STRING_MULTILINE /\
    key p' = key p /\ comment p' = comment p /\
    value_partial p' =
    Some (Some (if oneline (chomp line)
                then t ++ [lf] ++ chomp line
                else t)).
Proof.
  intros S P E.
  pose proof (parse_multiline_line_spec line) as M.
  destruct (oneline (chomp line)).
  - rewrite (@step_in_value_line p line t (chomp line) S P E M).
    eexists. repeat split.
  - rewrite (@step_in_value_skip p line S E M).
    eexists. repeat split; assumption.
Qed.

Lemma X4_multiline_value_continuation_witness :
  let p := mkParser STRING_MULTILINE (Some (str "KEY4")) None
                    (Some (str "Comment4")) None
                    (Some (Some (str "VALUE4"))) in
  parse_state p = STRING_MULTILINE /\
  value_partial p = Some (Some (str "VALUE4")) /\
  parse_multiline_end [lf] = None /\
  exists p',
    parse_line p [lf] = Ok (p', None) /\
    parse_state p' = STRING_MULTILINE /\
    key p' = Some (str "KEY4") /\ comment p' = Some (str "Comment4") /\
    value_partial p' = Some (Some (str "VALUE4")).
Proof.
  intro p. repeat (split; [reflexivity|]).
  exact (@X4_multiline_value_continuation p (str "VALUE4") [lf]
           eq_refl eq_refl eq_refl).
Defined.

(** X5: after a single-line comment every line that does not begin
    with a double quote is passed over, a blank line as well as another
    comment, and the full entry that comes then is returned with the
    first comment. *)
Theorem X5_lines_between_comment_and_entry C junk K V :
  oneline C = true ->
  forallb (fun l => negb (begins_with dq l)) junk = true ->
  plain K = true -> plain V = true ->
  exists p,
    calls init (comment_line C :: junk ++ [entry_line K V]) =
    Ok (p, None :: nones junk ++
              [Some (mkLocalizedString (Some K) (Some V) (Some C))]).
Proof.
  intros HC F HK HV.
  fire step_comment_single.
  destruct (@junk_passed junk
              (mkParser STRING None None (Some C) None None) eq_refl F)
    as [p' [E [S' C']]].
  rewrite (@calls_after _ junk (nones junk) p' [entry_line K V] E).
  rewrite calls_cons.
  erewrite step_string_entry by (first [eassumption | eauto with grammar]).
  simpl in *. rewrite C'. eexists. reflexivity.
Qed.

Lemma X5_lines_between_comment_and_entry_witness :
  oneline (str "Comment1") = true /\
  forallb (fun l => negb (begins_with dq l))
          [str "    "; comment_line (str "Comment2")] = true /\
  plain (str "key1") = true /\ plain (str "value1") = true /\
  exists p,
    calls init [comment_line (str "Comment1"); str "    ";
                comment_line (str "Comment2");
                entry_line (str "key1") (str "value1")] =
    Ok (p, [None; None; None;
            Some (mkLocalizedString (Some (str "key1")) (Some (str "value1"))
                                    (Some (str "Comment1")))]).
Proof.
  repeat (split; [reflexivity|]).
  exact (@X5_lines_between_comment_and_entry (str "Comment1")
           [str "    "; comment_line (str "Comment2")]
           (str "key1") (str "value1") eq_refl eq_refl eq_refl eq_refl).
Defined.

(** X6: a value may go over any number of lines.  After a single-line
    comment, the line that opens the value [V1] of the key [K], then the
    lines [mids] (each not empty, without double quote), then the line
    that ends the value with [V2]: one entry is returned, on the last
    line, whose value is [V1], the lines of [mids] and [V2] joined with
    line feeds. *)
Theorem X6_value_over_many_lines C K V1 mids V2 :
  oneline C = true -> plain K = true -> plain V1 = true ->
  forallb plain mids = true -> plain V2 = true ->
  exists p,
    calls init ([comment_line C; value_start_line K V1] ++ mids ++
                [value_end_line V2]) =
    Ok (p, [None; None] ++ nones mids ++
           [Some (mkLocalizedString
                    (Some K) (Some (join_lf (V1 :: mids ++ [V2])))
                    (Some C))]) /\
    parse_state p = COMMENT.
Proof.
  intros HC HK HV1 HM HV2.
  change ([comment_line C; value_start_line K V1] ++ mids ++
          [value_end_line V2])
    with (comment_line C :: value_start_line K V1 :: mids ++
          [value_end_line V2]).
  fire step_comment_single. fire step_string_start.
  rewrite (@calls_after _ mids _ _ [value_end_line V2]
             (@value_lines_added mids (Some K) None (Some C) None V1 HM)).
  fire step_in_value_end.
  pose proof (fold_join mids V1 V2) as J. simpl in J.
  unfold text in *. rewrite J. eexists. split; reflexivity.
Qed.

Lemma X6_value_over_many_lines_witness :
  oneline (str "C") = true /\ plain (str "K") = true /\
  plain (str "one") = true /\
  forallb plain [str "two"; str "three"] = true /\
  plain (str "four") = true /\
  exists p,
    calls init [comment_line (str "C"); value_start_line (str "K") (str "one");
                str "two"; str "three"; value_end_line (str "four")] =
    Ok (p, [None; None; None; None;
            Some (mkLocalizedString
                    (Some (str "K"))
                    (Some (str "one" ++ [lf] ++ str "two" ++ [lf] ++
                           str "three" ++ [lf] ++ str "four"))
                    (Some (str "C")))]) /\
    parse_state p = COMMENT.
Proof.
  repeat (split; [reflexivity|]).
  exact (@X6_value_over_many_lines (str "C") (str "K") (str "one")
           [str "two"; str "three"] (str "four")
           eq_refl eq_refl eq_refl eq_refl eq_refl).
Defined.

(** X7: a comment may go over any number of lines.  The first line
    [/* L1] with no closing of the comment in [L1], then the lines
    [mids] (each not empty and without the closing), then the line that
    closes the comment after the text [L3], then a full entry: the entry
    is returned with [L1], the lines of [mids] and [L3] joined with line
    feeds as its comment. *)
Theorem X7_comment_over_many_lines L1 mids L3 K V :
  oneline L1 = true -> closes L1 = false ->
  forallb (fun m => oneline m && negb (closes m)) mids = true ->
  oneline L3 = true ->
  plain K = true -> plain V = true ->
  exists p,
    calls init ([comment_start_line L1] ++ mids ++
                [comment_end_line L3; entry_line K V]) =
    Ok (p, [None] ++ nones mids ++
           [None;
            Some (mkLocalizedString
                    (Some K) (Some V)
                    (Some (join_lf (L1 :: mids ++ [L3]))))]) /\
    parse_state p = COMMENT.
Proof.
  intros H1 C1 HM H3 HK HV.
  change ([comment_start_line L1] ++ mids ++
          [comment_end_line L3; entry_line K V])
    with (comment_start_line L1 :: mids ++
          [comment_end_line L3; entry_line K V]).
  fire step_comment_start.
  rewrite (@calls_after _ mids _ _ [comment_end_line L3; entry_line K V]
             (@comment_lines_added mids None None None None L1 HM)).
  fire step_in_comment_end. fire step_string_entry.
  pose proof (fold_join mids L1 L3) as J. simpl in J.
  unfold text in *. rewrite J. eexists. split; reflexivity.
Qed.

Lemma X7_comment_over_many_lines_witness :
  oneline (str "Line 1") = true /\ closes (str "Line 1") = false /\
  forallb (fun m => oneline m && negb (closes m))
          [str " Line 2"; str " more"] = true /\
  oneline (str " Line 3 ") = true /\
  plain (str "key") = true /\ plain (str "value") = true /\
  exists p,
    calls init [str "/* Line 1"; str " Line 2"; str " more"; str " Line 3 */";
                entry_line (str "key") (str "value")] =
    Ok (p, [None; None; None; None;
            Some (mkLocalizedString
                    (Some (str "key")) (Some (str "value"))
                    (Some (str "Line 1" ++ [lf] ++ str " Line 2" ++ [lf] ++
                           str " more" ++ [lf] ++ str " Line 3 ")))]) /\
    parse_state p = COMMENT.
Proof.
  repeat (split; [reflexivity|]).
  exact (@X7_comment_over_many_lines (str "Line 1")
           [str " Line 2"; str " more"] (str " Line 3 ")
           (str "key") (str "value")
           eq_refl eq_refl eq_refl eq_refl eq_refl eq_refl).
Defined.

Lemma entry_line_as_end K V :
  entry_line K V = value_end_line ([dq] ++ K ++ [dq] ++ str " = " ++ [dq] ++ V).
Proof.
  unfold entry_line, value_end_line. now rewrite <- !app_assoc.
Qed.

Lemma entry_body_oneline K V :
  plain K = true -> plain V = true ->
  oneline ([dq] ++ K ++ [dq] ++ str " = " ++ [dq] ++ V) = true.
Proof.
  intros HK HV. apply plain_oneline in HK, HV.
  unfold oneline in *. simpl.
  apply andb_true_iff in HK, HV. destruct HK as [_ HK], HV as [_ HV].
  rewrite lacks_app, HK. simpl. now rewrite HV.
Qed.

(** X8: a full entry with its comment behind it is read as such only
    in the state [COMMENT].  When it follows a comment line it is taken
    for the first line of a multi-line value, and the full entry on the
    next line for the end of that value: one entry is returned, under the
    first key, whose value holds the rest of the first line and the
    second line up to its last quote. *)
Theorem X8_entry_with_comment_after_a_comment C0 K V C K2 V2 :
  oneline C0 = true ->
  plain K = true -> plain V = true -> plain C = true ->
  lacks "="%char V = true ->
  plain K2 = true -> plain V2 = true ->
  exists p,
    calls init [comment_line C0; entry_comment_line K V C; entry_line K2 V2] =
    Ok (p, [None; None;
            Some (mkLocalizedString
                    (Some K)
                    (Some ((V ++ [dq] ++ str "; /* " ++ C ++ str " */") ++
                           [lf] ++
                           ([dq] ++ K2 ++ [dq] ++ str " = " ++ [dq] ++ V2)))
                    (Some C0))]) /\
    parse_state p = COMMENT.
Proof.
  intros HC0 HK HV HC HE HK2 HV2.
  pose proof (entry_body_oneline K2 V2 HK2 HV2) as O.
  fire step_comment_single. fire step_string_start.
  rewrite (entry_line_as_end K2 V2).
  fire step_in_value_end.
  eexists. split; reflexivity.
Qed.

Lemma X8_entry_with_comment_after_a_comment_witness :
  oneline (str "C0") = true /\
  plain (str "K") = true /\ plain (str "V") = true /\ plain (str "C") = true /\
  lacks "="%char (str "V") = true /\
  plain (str "K2") = true /\ plain (str "V2") = true /\
  exists p,
    calls init [comment_line (str "C0");
                entry_comment_line (str "K") (str "V") (str "C");
                entry_line (str "K2") (str "V2")] =
    Ok (p, [None; None;
            Some (mkLocalizedString
                    (Some (str "K"))
                    (Some ((str "V" ++ [dq] ++ str "; /* C */") ++ [lf] ++
                           ([dq] ++ str "K2" ++ [dq] ++ str " = " ++ [dq] ++
                            str "V2")))
                    (Some (str "C0")))]) /\
    parse_state p = COMMENT.
Proof.
  repeat (split; [reflexivity|]).
  exact (@X8_entry_with_comment_after_a_comment (str "C0") (str "K") (str "V")
           (str "C") (str "K2") (str "V2")
           eq_refl eq_refl eq_refl eq_refl eq_refl eq_refl eq_refl).
Defined.

(* ================================================================== *)
(** ** Printing and reading back *)

Module RoundTrip.
Import ReFacts TextFacts GrammarFacts ParserFacts GrammarMore ParserMore
       LinesFacts.

Lemma word_no_lf x : all_in CWord x -> count lf x = 0.
Proof.
  induction 1 as [|c x H _ IH]; [reflexivity|]. simpl.
  destruct (Ascii.eqb c lf) eqn:E; [|exact IH].
  apply Ascii.eqb_eq in E. subst. vm_compute in H. discriminate H.
Qed.

(** *** Lines with the line feed that ends them *)

Lemma full_entry_lf_unique K V st' :
  plain K = true -> plain V = true ->
  matches LOCALIZED_STRING_EXPR (MState 0 (entry_line K V ++ [lf]) []) st' ->
  caps st' = [("value"%string, V); ("key"%string, K)].
Proof.
  intros HK HV H. plain_hyps.
  open_pattern LOCALIZED_STRING_EXPR H.
  match goal with E : entry_line _ _ ++ _ = _ |- _ => rename E into E0 end.
  unfold entry_line in E0. flat E0. peel E0.
  assert (C := f_equal (count dq) E0). count_norm C.
  apply split_at in E0; [|lia|lia]. destruct E0 as [<- E0].
  opt_cases; simpl in E0; peel E0.
  all: apply split_at in E0; [|lia|lia]; destruct E0 as [<- E0].
  all: reflexivity.
Qed.

Lemma full_entry_lf_exists K V :
  plain K = true -> plain V = true ->
  exists st',
    matches LOCALIZED_STRING_EXPR (MState 0 (entry_line K V ++ [lf]) []) st'.
Proof.
  intros HK HV. plain_hyps.
  eexists. unfold LOCALIZED_STRING_EXPR, seq, fold_right.
  replace (entry_line K V ++ [lf]) with
    ([dq] ++ K ++ [dq] ++ [sp] ++ str "=" ++ [sp] ++ [dq] ++ V ++ [dq] ++
     str ";" ++ [lf])
    by (unfold entry_line; now rewrite <- !app_assoc).
  build_match.
Qed.

Lemma parse_localized_pair_entry_lf K V :
  plain K = true -> plain V = true ->
  parse_localized_pair (entry_line K V ++ [lf]) = (Some K, Some V).
Proof.
  intros HK HV. unfold parse_localized_pair.
  now rewrite (re_match_the (full_entry_lf_exists K V HK HV)
                            (fun st' => @full_entry_lf_unique K V st' HK HV)).
Qed.

Lemma parse_trailing_comment_plain_entry_lf K V :
  plain K = true -> plain V = true ->
  parse_trailing_comment (entry_line K V ++ [lf]) = (None, None, None).
Proof.
  intros HK HV. unfold parse_trailing_comment.
  rewrite re_match_none; [reflexivity|].
  intros st' H. plain_hyps.
  open_pattern LOCALIZED_STRING_TRAILING_COMMENT_EXPR H.
  match goal with E : entry_line _ _ ++ _ = _ |- _ => rename E into E0 end.
  unfold entry_line in E0. flat E0. peel E0.
  assert (Q := f_equal (count dq) E0). count_norm Q.
  apply split_at in E0; [|lia|lia]. destruct E0 as [<- E0].
  opt_cases; simpl in E0; peel E0.
  all: apply split_at in E0; [|lia|lia]; destruct E0 as [<- E0].
  all: simpl in E0; peel E0.
Qed.

Lemma comment_lf_unique C st' :
  oneline C = true ->
  matches COMMENT_EXPR (MState 0 (comment_line C ++ [lf]) []) st' ->
  caps st' = [("comment"%string, C)].
Proof.
  intros HC H. plain_hyps.
  open_pattern COMMENT_EXPR H.
  match goal with E : comment_line _ ++ _ = _ |- _ => rename E into E0 end.
  unfold comment_line in E0. flat E0.
  match type of E0 with
  | _ = ?x ++ _ => destruct x as [|a x]; simpl in E0; peel E0; [|bad_char]
  end.
  assert (L := f_equal (count lf) E0). count_norm L.
  match goal with
  | D : all_in CDot ?x1, W : all_in CWord ?x2, Z : ?z = [] \/ ?z = [lf] |- _ =>
      match type of E0 with
      | _ = x1 ++ _ =>
          pose proof (lacks_count _ _ (all_in_lacks D)) as L1;
          pose proof (word_no_lf _ W) as L2;
          destruct Z as [Z|Z]; rewrite Z in *; [simpl in L; lia|];
          assert (E1 : (C ++ [sp; "*"%char; "/"%char]) ++ [lf] =
                       (x1 ++ sp :: "*"%char :: "/"%char :: x2) ++ [lf])
            by (rewrite <- !app_assoc; exact E0);
          apply app_inj_tail in E1; destruct E1 as [E1 _];
          destruct (tail_unique [sp; "*"%char] "/"%char C x1
                      (word_or_lf W (or_introl eq_refl)) not_slash)
            as [<- _];
          [ rewrite app_nil_r; exact E1 | reflexivity ]
      end
  end.
Qed.

Lemma comment_lf_exists C :
  oneline C = true ->
  exists st', matches COMMENT_EXPR (MState 0 (comment_line C ++ [lf]) []) st'.
Proof.
  intros HC. plain_hyps.
  eexists. unfold COMMENT_EXPR, seq, fold_right.
  replace (comment_line C ++ [lf]) with
    ([] ++ str "/* " ++ C ++ str " */" ++ [] ++ [lf])
    by (unfold comment_line; now rewrite <- !app_assoc).
  build_match.
Qed.

Lemma parse_comment_comment_lf C :
  oneline C = true -> parse_comment (comment_line C ++ [lf]) = Some C.
Proof.
  intros HC. unfold parse_comment.
  now rewrite (re_match_the (comment_lf_exists C HC)
                            (fun st' => @comment_lf_unique C st' HC)).
Qed.

(** *** The lines of a text *)

Lemma file_lines_line a : forall contents,
  lacks lf a = true ->
  file_lines (a ++ [lf] ++ contents) = (a ++ [lf]) :: file_lines contents.
Proof.
  induction a as [|c a IH]; intros contents L; [reflexivity|].
  simpl in L. apply andb_true_iff in L. destruct L as [Hc L].
  apply negb_true_iff in Hc.
  change ((c :: a) ++ [lf] ++ contents) with (c :: (a ++ [lf] ++ contents)).
  cbn [file_lines]. rewrite Hc, (IH contents L). reflexivity.
Qed.

Lemma lacks_lf_oneline t : oneline t = true -> lacks lf t = true.
Proof. unfold oneline. intro H. apply andb_true_iff in H. tauto. Qed.

Lemma lacks_lf_plain t : plain t = true -> lacks lf t = true.
Proof. intro H. now apply lacks_lf_oneline, plain_oneline. Qed.

Lemma lacks_lf_comment_line C :
  oneline C = true -> lacks lf (comment_line C) = true.
Proof.
  intro H. apply lacks_lf_oneline in H. unfold comment_line.
  rewrite !lacks_app, H. reflexivity.
Qed.

Lemma lacks_lf_entry_line K V :
  plain K = true -> plain V = true -> lacks lf (entry_line K V) = true.
Proof.
  intros HK HV. apply lacks_lf_plain in HK, HV. unfold entry_line.
  rewrite !lacks_app, HK, HV. reflexivity.
Qed.


Lemma printable_inv e :
  printable e = true ->
  exists k v c,
    e = mkLocalizedString (Some k) (Some v) (Some c) /\
    plain k = true /\ plain v = true /\ oneline c = true.
Proof.
  destruct e as [[k|] [v|] [c|]]; simpl; try discriminate.
  intro H. apply andb_true_iff in H. destruct H as [H Hc].
  apply andb_true_iff in H. destruct H as [Hk Hv]. eauto 10.
Qed.

Lemma str_printable k v c :
  oneline c = true ->
  forall contents,
    LocalizedString_str (mkLocalizedString (Some k) (Some v) (Some c)) ++
    contents =
    comment_line c ++ [lf] ++ entry_line k v ++ [lf] ++ contents.
Proof.
  intros Hc contents. destruct c as [|x c]; [discriminate Hc|].
  unfold LocalizedString_str, comment_line, entry_line.
  cbn [truthy ls_comment ls_key ls_value or_empty].
  rewrite <- !app_assoc. reflexivity.
Qed.

(** The two lines of a printed entry, read by a parser in [COMMENT]. *)
Lemma printed_entry_read p e contents :
  parse_state p = COMMENT ->
  printable e = true ->
  calls p (file_lines (LocalizedString_str e ++ contents)) =
  (r <- calls (mkParser COMMENT None None None
                        (comment_partial p) (value_partial p))
              (file_lines contents) ;;
   Ok (fst r, None :: Some e :: snd r)).
Proof.
  intros S P. destruct (printable_inv e P) as [k [v [c [-> [Hk [Hv Hc]]]]]].
  rewrite (str_printable k v c Hc).
  rewrite (file_lines_line _ _ (lacks_lf_comment_line c Hc)).
  rewrite (file_lines_line _ _ (lacks_lf_entry_line k v Hk Hv)).
  rewrite calls_cons.
  rewrite (@step_comment_single p (comment_line c ++ [lf]) c S
             (@parse_trailing_comment_no_quote (comment_line c ++ [lf]) eq_refl)
             (parse_comment_comment_lf c Hc)).
  cbn [bind fst snd]. rewrite calls_cons.
  pose proof (parse_localized_pair_entry_lf k v Hk Hv) as E.
  erewrite step_string_entry by (first [reflexivity | exact E]).
  cbn [bind fst snd comment comment_partial value_partial].
  destruct (calls _ (file_lines contents)) as [[p' rs]|x]; reflexivity.
Qed.

Lemma printed_entries_read es : forall p,
  parse_state p = COMMENT ->
  forallb printable es = true ->
  exists p' rs,
    calls p (file_lines (flat_map LocalizedString_str es)) = Ok (p', rs) /\
    entries rs = es /\ parse_state p' = COMMENT.
Proof.
  induction es as [|e es IH]; intros p S F.
  - exists p, []. repeat split. assumption.
  - simpl in F. apply andb_true_iff in F. destruct F as [Pe F].
    cbn [flat_map]. rewrite (printed_entry_read p e _ S Pe).
    destruct (IH (mkParser COMMENT None None None
                           (comment_partial p) (value_partial p))
                 eq_refl F) as [p' [rs [E [R S']]]].
    rewrite E. cbn [bind fst snd].
    exists p', (None :: Some e :: rs). repeat split; [|assumption].
    simpl. now rewrite R.
Qed.

(** *** The dictionary *)

Lemma py_eq_true a b : py_eq a b = true <-> a = b.
Proof.
  destruct a as [x|], b as [y|]; simpl; split; intro H;
    try discriminate; try reflexivity.
  - destruct (text_eq_dec x y); [now subst | discriminate].
  - inversion H; subst. now destruct (text_eq_dec y y).
Qed.

Lemma dict_get_set d : forall k v k',
  dict_get (dict_set d k v) k' =
  if py_eq k k' then Some v else dict_get d k'.
Proof.
  induction d as [|[k0 v0] d IH]; intros k v k'; simpl; [reflexivity|].
  destruct (py_eq k0 k) eqn:E0; simpl.
  - apply py_eq_true in E0. subst k0.
    destruct (py_eq k k'); reflexivity.
  - rewrite IH. destruct (py_eq k0 k') eqn:E1; [|reflexivity].
    destruct (py_eq k k') eqn:E2; [|reflexivity].
    apply py_eq_true in E1, E2. subst.
    assert (X : py_eq k' k' = true) by now apply py_eq_true.
    congruence.
Qed.

Lemma dict_get_fold es : forall d k found,
  dict_get d k = found ->
  dict_get (fold_left (fun d e => dict_set d (ls_key e) (ls_value e)) es d) k =
  fold_left (fun found e => if py_eq (ls_key e) k
                            then Some (ls_value e) else found) es found.
Proof.
  induction es as [|e es IH]; intros d k found H; simpl; [assumption|].
  apply IH. rewrite dict_get_set, H. reflexivity.
Qed.

End RoundTrip.
Import RoundTrip.






(** X12: [__eq__] holds of two entries exactly when they have the same
    key, the same value and the same comment, a missing one being equal
    to a missing one only; [__neq__] holds exactly when it does not. *)
Theorem X12_eq_is_equality_of_the_fields a b :
  (LocalizedString_eq a b = true <-> a = b) /\
  (LocalizedString_neq a b = true <-> a <> b).
Proof.
  assert (E : LocalizedString_eq a b = true <-> a = b).
  { unfold LocalizedString_eq. destruct a as [k v c], b as [k' v' c'].
    simpl. rewrite !andb_true_iff, !py_eq_true. split.
    - intros [[-> ->] ->]. reflexivity.
    - intro H. inversion H. auto. }
  split; [exact E|]. unfold LocalizedString_neq.
  rewrite negb_true_iff. split.
  - intros H X. apply E in X. congruence.
  - intro H. destruct (LocalizedString_eq a b) eqn:X; [|reflexivity].
    exfalso. apply H, E. reflexivity.
Qed.

(* ================================================================== *)
(** ** The encoding of a file and the search for source files *)

Module FilesFacts.

Lemma is_prefix_app p : forall a b,
  is_prefix p a = true -> is_prefix p (a ++ b) = true.
Proof.
  induction p as [|c p IH]; intros a b H; [reflexivity|].
  destruct a as [|d a]; [discriminate H|]. simpl in *.
  apply andb_true_iff in H. destruct H as [H1 H2].
  now rewrite H1, (IH a b H2).
Qed.

Lemma is_prefix_nil p : is_prefix p [] = true -> p = [].
Proof. destruct p; [reflexivity | discriminate]. Qed.

Lemma contains_app_r p : forall a b,
  contains p a = true -> contains p (a ++ b) = true.
Proof.
  induction a as [|d a IH]; intros b H.
  - simpl in H. apply is_prefix_nil in H. subst p.
    destruct b; reflexivity.
  - simpl in H. apply orb_true_iff in H.
    change ((d :: a) ++ b) with (d :: (a ++ b)). cbn [contains].
    apply orb_true_iff. destruct H as [H|H].
    + left. exact (is_prefix_app p (d :: a) b H).
    + right. exact (IH b H).
Qed.

Lemma ignore_loop_spec patterns dir_path : forall b,
  ignore_loop patterns dir_path b =
  b || existsb (fun p => contains p dir_path) patterns.
Proof.
  induction patterns as [|p ps IH]; intro b; simpl.
  - now rewrite orb_false_r.
  - destruct (contains p dir_path); rewrite IH; simpl.
    + now rewrite orb_true_r.
    + reflexivity.
Qed.

Lemma files_loop_spec extensions dir_path file_names : forall paths,
  files_loop extensions dir_path file_names paths =
  paths ++
  map (path_join dir_path)
      (filter (fun f => member (rpartition_tail "."%char f) extensions)
              file_names).
Proof.
  induction file_names as [|f fs IH]; intro paths; simpl.
  - now rewrite app_nil_r.
  - destruct (member (rpartition_tail "."%char f) extensions); rewrite IH.
    + now rewrite <- app_assoc.
    + reflexivity.
Qed.

Lemma walk_loop_spec extensions ignore_patterns walk : forall paths,
  walk_loop extensions ignore_patterns walk paths =
  paths ++
  flat_map
    (fun d =>
       if match ignore_patterns with
          | Some patterns => existsb (fun p => contains p (fst d)) patterns
          | None => false
          end
       then []
       else map (path_join (fst d))
                (filter (fun f =>
                           member (rpartition_tail "."%char f) extensions)
                        (snd d)))
    walk.
Proof.
  induction walk as [|[dir files] walk IH]; intro paths; simpl.
  - now rewrite app_nil_r.
  - destruct ignore_patterns as [patterns|].
    + rewrite ignore_loop_spec. simpl.
      destruct (existsb (fun p => contains p dir) patterns); rewrite IH.
      * reflexivity.
      * rewrite files_loop_spec. now rewrite <- app_assoc.
    + rewrite IH, files_loop_spec. now rewrite <- app_assoc.
Qed.

Lemma rpartition_tail_none c s : lacks c s = true -> rpartition_tail c s = s.
Proof.
  destruct s as [|x s]; [reflexivity|]. simpl. intro H.
  apply andb_true_iff in H. destruct H as [Hx Hs].
  apply negb_true_iff in Hx. now rewrite Hs, Hx.
Qed.

Lemma lacks_app_sep c a b : lacks c (a ++ c :: b) = false.
Proof.
  induction a as [|x a IH]; simpl.
  - now rewrite Ascii.eqb_refl.
  - rewrite IH. apply andb_false_r.
Qed.

Lemma rpartition_tail_last c base ext :
  lacks c ext = true -> rpartition_tail c (base ++ c :: ext) = ext.
Proof.
  intro H. induction base as [|x base IH]; simpl.
  - now rewrite H, Ascii.eqb_refl.
  - now rewrite lacks_app_sep.
Qed.

Lemma path_join_extends a b :
  begins_with "/"%char b = false -> exists x, path_join a b = a ++ x.
Proof.
  intro H. unfold path_join. rewrite H.
  destruct (negb (nonempty a) || ends_with "/"%char a); eauto.
Qed.

End FilesFacts.
Import FilesFacts.

(** X13: [read_file_encoding] returns the first encoding, in the order
    utf-8, utf-16, utf-16-le, utf-16-be, under which the file decodes,
    and [False] exactly when it decodes under none of the four. *)
Theorem X13_first_encoding_that_decodes (decodes : string -> bool) :
  match read_file_encoding decodes with
  | Some enc =>
      exists before after,
        ENCODINGS = before ++ enc :: after /\
        decodes enc = true /\
        Forall (fun e => decodes e = false) before
  | None => Forall (fun e => decodes e = false) ENCODINGS
  end.
Proof.
  unfold read_file_encoding, ENCODINGS, first_encoding, try_encoding.
  destruct (decodes "utf-8"%string) eqn:E1.
  { exists [], ["utf-16"; "utf-16-le"; "utf-16-be"]%string. auto. }
  destruct (decodes "utf-16"%string) eqn:E2.
  { exists ["utf-8"%string], ["utf-16-le"; "utf-16-be"]%string. auto. }
  destruct (decodes "utf-16-le"%string) eqn:E3.
  { exists ["utf-8"; "utf-16"]%string, ["utf-16-be"%string]. auto. }
  destruct (decodes "utf-16-be"%string) eqn:E4.
  { exists ["utf-8"; "utf-16"; "utf-16-le"]%string, []. auto 6. }
  auto 6.
Qed.

(** X14: [find_sources] lists, directory by directory in the order of
    the walk and file by file in the order of the directory, the joined
    paths of the files whose name ends, after its last dot, in one of the
    extensions (c, m and mm when none are given), leaving out the
    directories whose path contains one of the ignore patterns. *)
Theorem X14_find_sources_lists walk extensions ignore_patterns :
  find_sources walk extensions ignore_patterns =
  flat_map
    (fun d =>
       if match ignore_patterns with
          | Some patterns => existsb (fun p => contains p (fst d)) patterns
          | None => false
          end
       then []
       else map (path_join (fst d))
                (filter (fun f =>
                           member (rpartition_tail "."%char f)
                                  match extensions with
                                  | Some given => given
                                  | None => [str "c"; str "m"; str "mm"]
                                  end)
                        (snd d)))
    walk.
Proof.
  unfold find_sources. destruct extensions; now rewrite walk_loop_spec.
Qed.

(** X15: the extension of a file name is what follows its last dot,
    whatever is before it. *)
Theorem X15_extension_after_the_last_dot base ext :
  lacks "."%char ext = true ->
  rpartition_tail "."%char (base ++ "."%char :: ext) = ext.
Proof. apply rpartition_tail_last. Qed.

Lemma X15_extension_after_the_last_dot_witness :
  lacks "."%char (str "m") = true /\
  rpartition_tail "."%char (str "My.View" ++ "."%char :: str "m") = str "m".
Proof.
  split; [reflexivity|].
  exact (X15_extension_after_the_last_dot (str "My.View") (str "m") eq_refl).
Defined.

(** X16: a file name without a dot is its own extension: a file that
    is named like one of the extensions is taken for a source file. *)
Theorem X16_file_without_dot_is_its_extension dir_path name extensions :
  lacks "."%char name = true ->
  member name extensions = true ->
  find_sources [(dir_path, [name])] (Some extensions) None =
  [path_join dir_path name].
Proof.
  intros L M. unfold find_sources. rewrite walk_loop_spec. simpl.
  rewrite (rpartition_tail_none _ _ L), M. reflexivity.
Qed.

Lemma X16_file_without_dot_is_its_extension_witness :
  lacks "."%char (str "m") = true /\
  member (str "m") [str "c"; str "m"; str "mm"] = true /\
  find_sources [(str "TestInput", [str "m"])]
               (Some [str "c"; str "m"; str "mm"]) None =
  [str "TestInput/m"].
Proof.
  split; [reflexivity|]. split; [reflexivity|].
  exact (X16_file_without_dot_is_its_extension (str "TestInput") (str "m")
           [str "c"; str "m"; str "mm"] eq_refl eq_refl).
Defined.

(** X17: ignoring goes down the tree.  When the path of a directory
    contains one of the ignore patterns, so does the path of every
    directory joined below it, and no file of that directory is
    listed. *)
Theorem X17_ignored_directory_ignores_below
        patterns dir_path sub file_names extensions :
  existsb (fun p => contains p dir_path) patterns = true ->
  begins_with "/"%char sub = false ->
  existsb (fun p => contains p (path_join dir_path sub)) patterns = true /\
  find_sources [(path_join dir_path sub, file_names)] extensions
               (Some patterns) = [].
Proof.
  intros I S.
  assert (X : existsb (fun p => contains p (path_join dir_path sub)) patterns
              = true).
  { apply existsb_exists in I. destruct I as [p [Hp C]].
    apply existsb_exists. exists p. split; [assumption|].
    destruct (path_join_extends dir_path sub S) as [x ->].
    now apply contains_app_r. }
  split; [exact X|].
  unfold find_sources. rewrite walk_loop_spec. simpl. now rewrite X.
Qed.

Lemma X17_ignored_directory_ignores_below_witness :
  existsb (fun p => contains p (str "TestInput/3rdParty"))
          [str "3rdParty"] = true /\
  begins_with "/"%char (str "lib") = false /\
  find_sources [(str "TestInput/3rdParty/lib", [str "test3.m"])]
               None (Some [str "3rdParty"]) = [].
Proof.
  split; [reflexivity|]. split; [reflexivity|].
  exact (proj2 (X17_ignored_directory_ignores_below
                  [str "3rdParty"] (str "TestInput/3rdParty") (str "lib")
                  [str "test3.m"] None eq_refl eq_refl)).
Defined.

(* ================================================================== *)
(** ** The strings of an interface file *)

Module IbFacts.

Lemma appends_seq (g h : step) :
  appends g -> appends h -> appends (fun out => o <- g out ;; h o).
Proof.
  intros G H out. rewrite (G out).
  destruct (g []) as [a|e]; simpl; [|reflexivity].
  rewrite (H (out ++ a)), (H a).
  destruct (h []) as [b|e]; simpl; [|reflexivity].
  now rewrite app_assoc.
Qed.

Lemma appends_id : appends (fun out => Ok out).
Proof. intro out. simpl. now rewrite app_nil_r. Qed.

Lemma appends_raise e : appends (fun _ => Raise e).
Proof. intro out. reflexivity. Qed.

Lemma appends_for_each A (xs : list A) body :
  (forall x, appends (body x)) -> appends (for_each xs body).
Proof.
  intro B. induction xs as [|x xs IH].
  - apply appends_id.
  - exact (appends_seq (body x) (for_each xs body) (B x) IH).
Qed.

Lemma appends_attr_item filename e name suffix value :
  appends (attr_item filename e name suffix value).
Proof.
  intro out. unfold attr_item. destruct (truthy (get e name)).
  - destruct (add_to_attr (get e "id") (str suffix)); reflexivity.
  - simpl. now rewrite app_nil_r.
Qed.

Lemma appends_button filename b : appends (button_body filename b).
Proof.
  apply appends_for_each. intros state out. cbv zeta.
  destruct (truthy (get state "title")).
  - destruct (add_to_attr (get b "id") (str ".")) as [k1|]; [|reflexivity].
    simpl. destruct (add_attr k1 (get state "key")); reflexivity.
  - simpl. now rewrite app_nil_r.
Qed.

Lemma appends_label filename e : appends (label_body filename e).
Proof. apply appends_attr_item. Qed.

Lemma appends_title filename e : appends (title_body filename e).
Proof. apply appends_attr_item. Qed.

Lemma appends_text_field filename e : appends (text_field_body filename e).
Proof.
  exact (appends_seq _ _ (appends_attr_item filename e "text" ".text" _)
                     (appends_attr_item filename e "placeholder"
                                        ".placeholder" _)).
Qed.

Lemma appends_search_bar filename e : appends (search_bar_body filename e).
Proof.
  exact (appends_seq _ _
           (appends_attr_item filename e "text" ".text" _)
           (appends_seq _ _
              (appends_attr_item filename e "placeholder" ".placeholder" _)
              (appends_attr_item filename e "prompt" ".prompt" _))).
Qed.

Lemma appends_segmented_control filename e :
  appends (segmented_control_body filename e).
Proof.
  unfold segmented_control_body. destruct (find e "segments") as [s|].
  - apply appends_for_each. intros [index segment] out.
    destruct (add_to_attr (get e "id") (str ".segmentTitles["));
      reflexivity.
  - apply appends_raise.
Qed.

Lemma appends_text_view filename e : appends (text_view_body filename e).
Proof.
  unfold text_view_body. destruct (find e "string") as [s|].
  - intro out. destruct (truthy (text_of s)).
    + destruct (add_to_attr (get e "id") (str ".text")); reflexivity.
    + simpl. now rewrite app_nil_r.
  - apply appends_raise.
Qed.

Lemma bind_ok A (m : result A) : (x <- m ;; Ok x) = m.
Proof. destruct m; reflexivity. Qed.

Lemma find_strings_steps node filename out :
  find_strings_in_ib_file node filename out =
  run_steps (ib_steps node filename) out.
Proof.
  unfold find_strings_in_ib_file, ib_steps. simpl.
  repeat (match goal with
          | |- bind ?m _ = bind ?m _ =>
              destruct m; simpl; [|reflexivity]
          end).
  now rewrite bind_ok.
Qed.

Lemma ib_steps_append node filename :
  Forall appends (ib_steps node filename).
Proof.
  unfold ib_steps.
  repeat constructor; apply appends_for_each; intro x;
    first [ apply appends_button | apply appends_label
          | apply appends_text_field | apply appends_segmented_control
          | apply appends_text_view | apply appends_search_bar
          | apply appends_title ].
Qed.

Lemma run_steps_parts steps :
  Forall appends steps ->
  forall out res,
    run_steps steps out = Ok res ->
    exists parts,
      Forall2 (fun (s : step) p => s [] = Ok p) steps parts /\
      res = out ++ concat parts.
Proof.
  induction 1 as [|s steps S _ IH]; intros out res E; simpl in E.
  - inversion E; subst. exists []. split; [constructor|].
    simpl. now rewrite app_nil_r.
  - rewrite (S out) in E. destruct (s []) as [a|e] eqn:Ea; simpl in E;
      [|discriminate E].
    destruct (IH _ _ E) as [parts [F ->]].
    exists (a :: parts). split; [constructor; assumption|].
    simpl. now rewrite app_assoc.
Qed.

Lemma run_steps_of_parts steps :
  Forall appends steps ->
  forall parts out,
    Forall2 (fun (s : step) p => s [] = Ok p) steps parts ->
    run_steps steps out = Ok (out ++ concat parts).
Proof.
  induction 1 as [|s steps S _ IH]; intros parts out F; inversion F; subst;
    simpl.
  - now rewrite app_nil_r.
  - rewrite (S out). match goal with E : s [] = Ok _ |- _ => rewrite E end.
    simpl. rewrite (IH _ _ ltac:(eassumption)). now rewrite app_assoc.
Qed.

(** What a loop that does not raise has appended holds what its body
    appends for each of the elements. *)
Lemma for_each_holds A (xs : list A) body :
  (forall x, appends (body x)) ->
  forall res x new,
    for_each xs body [] = Ok res ->
    In x xs -> body x [] = Ok new ->
    exists l1 l2, res = l1 ++ new ++ l2.
Proof.
  intro B. induction xs as [|y xs IH]; intros res x new E I N;
    [destruct I|].
  simpl in E. destruct (body y []) as [a|e] eqn:Ea; simpl in E;
    [|discriminate E].
  rewrite (appends_for_each A xs body B a) in E.
  destruct (for_each xs body []) as [b|e] eqn:Eb; simpl in E;
    [|discriminate E].
  inversion E; subst. destruct I as [->|I].
  - rewrite Ea in N. inversion N; subst. exists [], b. reflexivity.
  - destruct (IH b x new eq_refl I N) as [l1 [l2 ->]].
    exists (a ++ l1), l2. now rewrite <- !app_assoc.
Qed.

Lemma for_each_files A (xs : list A) body (P : string_item -> Prop) :
  (forall x out res, body x out = Ok res -> Forall P out -> Forall P res) ->
  forall out res,
    for_each xs body out = Ok res -> Forall P out -> Forall P res.
Proof.
  intro B. induction xs as [|x xs IH]; intros out res E F; simpl in E.
  - inversion E; subst. assumption.
  - destruct (body x out) as [o|e] eqn:Eo; simpl in E; [|discriminate E].
    exact (IH o res E (B x out o Eo F)).
Qed.

Lemma attr_item_files filename e name suffix value out res :
  attr_item filename e name suffix value out = Ok res ->
  Forall (fun it => item_file it = filename) out ->
  Forall (fun it => item_file it = filename) res.
Proof.
  unfold attr_item. destruct (truthy (get e name)).
  - destruct (add_to_attr (get e "id") (str suffix)) as [k|]; simpl;
      [|discriminate].
    intros E F. inversion E; subst. apply Forall_app. split; [assumption|].
    constructor; [reflexivity | constructor].
  - intros E F. inversion E; subst. assumption.
Qed.

Lemma seq_files (P : string_item -> Prop) (g h : step) :
  (forall out res, g out = Ok res -> Forall P out -> Forall P res) ->
  (forall out res, h out = Ok res -> Forall P out -> Forall P res) ->
  forall out res,
    (o <- g out ;; h o) = Ok res -> Forall P out -> Forall P res.
Proof.
  intros G H out res E F. destruct (g out) as [o|e] eqn:Eo; simpl in E;
    [|discriminate E].
  exact (H o res E (G out o Eo F)).
Qed.

Lemma run_steps_files (P : string_item -> Prop) steps :
  Forall (fun g : step =>
            forall out res, g out = Ok res -> Forall P out -> Forall P res)
         steps ->
  forall out res,
    run_steps steps out = Ok res -> Forall P out -> Forall P res.
Proof.
  induction 1 as [|s steps S _ IH]; intros out res E F; simpl in E.
  - inversion E; subst. assumption.
  - destruct (s out) as [o|e] eqn:Eo; simpl in E; [|discriminate E].
    exact (IH o res E (S out o Eo F)).
Qed.

Ltac one_item :=
  let E := fresh "E" in let F := fresh "F" in
  intros E F; inversion E; subst;
  first [ assumption
        | apply Forall_app; split;
          [assumption | constructor; [reflexivity | constructor]] ].

Lemma ib_steps_files node filename :
  Forall (fun g : step =>
            forall out res, g out = Ok res ->
              Forall (fun it => item_file it = filename) out ->
              Forall (fun it => item_file it = filename) res)
         (ib_steps node filename).
Proof.
  unfold ib_steps.
  repeat constructor; apply for_each_files; intros x.
  - (* button *)
    apply for_each_files. intros state out res. cbv zeta.
    destruct (truthy (get state "title")); [|one_item].
    destruct (add_to_attr (get x "id") (str ".")) as [k1|]; simpl;
      [|discriminate].
    destruct (add_attr k1 (get state "key")); simpl; [one_item|discriminate].
  - apply attr_item_files.
  - apply seq_files; apply attr_item_files.
  - (* segmentedControl *)
    unfold segmented_control_body.
    destruct (find x "segments") as [s|]; [|discriminate].
    apply for_each_files. intros [index segment] out res.
    destruct (add_to_attr (get x "id") (str ".segmentTitles[")); simpl;
      [one_item|discriminate].
  - (* textView *)
    unfold text_view_body. intros out res.
    destruct (find x "string") as [s|]; [|discriminate].
    destruct (truthy (text_of s)); [|one_item].
    destruct (add_to_attr (get x "id") (str ".text")); simpl;
      [one_item|discriminate].
  - apply seq_files; [apply attr_item_files|].
    apply seq_files; apply attr_item_files.
  - apply attr_item_files.
  - apply attr_item_files.
  - apply attr_item_files.
  - apply attr_item_files.
Qed.

(** What one of the loops appends is in the result. *)
Lemma parts_in steps parts (s : step) :
  Forall2 (fun (s : step) p => s [] = Ok p) steps parts ->
  In s steps ->
  exists p, s [] = Ok p /\ forall it, In it p -> In it (concat parts).
Proof.
  induction 1 as [|s' p' steps parts E _ IH]; intros I; [destruct I|].
  destruct I as [->|I].
  - exists p'. split; [assumption|]. intros it Hi. simpl.
    apply in_or_app. now left.
  - destruct (IH I) as [p [Ep Hp]]. exists p. split; [assumption|].
    intros it Hi. simpl. apply in_or_app. right. now apply Hp.
Qed.

Lemma ib_step_in node filename out res (s : step) :
  find_strings_in_ib_file node filename out = Ok res ->
  In s (ib_steps node filename) ->
  exists p, s [] = Ok p /\ forall it, In it p -> In it res.
Proof.
  intros E I. rewrite find_strings_steps in E.
  destruct (run_steps_parts _ (ib_steps_append node filename) _ _ E)
    as [parts [F ->]].
  destruct (parts_in _ _ s F I) as [p [Ep Hp]].
  exists p. split; [assumption|]. intros it Hi.
  apply in_or_app. right. now apply Hp.
Qed.

Lemma for_each_in A (xs : list A) body res x new it :
  (forall x, appends (body x)) ->
  for_each xs body [] = Ok res ->
  In x xs -> body x [] = Ok new -> In it new -> In it res.
Proof.
  intros B E I N Hi.
  destruct (for_each_holds A xs body B res x new E I N) as [l1 [l2 ->]].
  apply in_or_app. right. apply in_or_app. now left.
Qed.

(** A loop goes through exactly when its body does on each element,
    given that whether the body goes through does not depend on the
    items so far. *)
Lemma for_each_ok_iff A (ok : A -> bool) body :
  (forall x out, (exists r, body x out = Ok r) <-> ok x = true) ->
  forall xs out,
    (exists r, for_each xs body out = Ok r) <-> forallb ok xs = true.
Proof.
  intros B. induction xs as [|x xs IH]; intro out; simpl.
  - split; eauto.
  - rewrite andb_true_iff. split.
    + intros [r E]. destruct (body x out) as [o|e] eqn:Eo; simpl in E;
        [|discriminate E].
      split; [apply (B x out); eauto | apply (IH o); eauto].
    + intros [Hx Hxs]. destruct (proj2 (B x out) Hx) as [o ->]. simpl.
      now apply IH.
Qed.

Lemma seq_ok_iff (g h : step) (a b : bool) :
  (forall out, (exists r, g out = Ok r) <-> a = true) ->
  (forall out, (exists r, h out = Ok r) <-> b = true) ->
  forall out, (exists r, (o <- g out ;; h o) = Ok r) <-> a && b = true.
Proof.
  intros G H out. rewrite andb_true_iff. split.
  - intros [r E]. destruct (g out) as [o|e] eqn:Eo; simpl in E;
      [|discriminate E].
    split; [apply (G out); eauto | apply (H o); eauto].
  - intros [Ha Hb]. destruct (proj2 (G out) Ha) as [o ->]. simpl.
    now apply H.
Qed.

Lemma run_steps_ok_iff steps bs :
  Forall2 (fun (s : step) (b : bool) =>
             forall out, (exists r, s out = Ok r) <-> b = true) steps bs ->
  forall out,
    (exists r, run_steps steps out = Ok r) <->
    forallb (fun b => b) bs = true.
Proof.
  induction 1 as [|s b steps bs S _ IH]; intro out; simpl.
  - split; eauto.
  - rewrite andb_true_iff. split.
    + intros [r E]. destruct (s out) as [o|e] eqn:Eo; simpl in E;
        [|discriminate E].
      split; [apply (S out); eauto | apply (IH o); eauto].
    + intros [Hb Hbs]. destruct (proj2 (S out) Hb) as [o ->]. simpl.
      now apply IH.
Qed.

Lemma attr_item_ok_iff filename e name suffix value out :
  (exists r, attr_item filename e name suffix value out = Ok r) <->
  negb (truthy (get e name)) || given (get e "id") = true.
Proof.
  unfold attr_item, add_to_attr.
  destruct (truthy (get e name)); simpl.
  - destruct (get e "id"); simpl; split; eauto; try discriminate.
    intros [r E]. discriminate E.
  - split; eauto.
Qed.

Lemma ok1 filename e name suffix value out :
  (exists r, attr_item filename e name suffix value out = Ok r) <->
  attrs_ok [name] e = true.
Proof.
  rewrite attr_item_ok_iff. unfold attrs_ok. simpl.
  now rewrite orb_false_r.
Qed.

Lemma text_field_ok_iff filename e out :
  (exists r, text_field_body filename e out = Ok r) <->
  attrs_ok ["text"%string; "placeholder"%string] e = true.
Proof.
  unfold text_field_body. cbv zeta.
  rewrite (seq_ok_iff _ _ _ _
             (attr_item_ok_iff filename e "text" ".text" _)
             (attr_item_ok_iff filename e "placeholder" ".placeholder" _)).
  unfold attrs_ok. simpl.
  destruct (truthy (get e "text")), (truthy (get e "placeholder")),
    (given (get e "id")); simpl; split; congruence.
Qed.

Lemma search_bar_ok_iff filename e out :
  (exists r, search_bar_body filename e out = Ok r) <->
  attrs_ok ["text"%string; "placeholder"%string; "prompt"%string] e = true.
Proof.
  unfold search_bar_body.
  rewrite (seq_ok_iff _ _ _ _
             (attr_item_ok_iff filename e "text" ".text" _)
             (seq_ok_iff _ _ _ _
                (attr_item_ok_iff filename e "placeholder" ".placeholder" _)
                (attr_item_ok_iff filename e "prompt" ".prompt" _))).
  unfold attrs_ok. simpl.
  destruct (truthy (get e "text")), (truthy (get e "placeholder")),
    (truthy (get e "prompt")), (given (get e "id")); simpl;
    split; congruence.
Qed.

Lemma button_ok_iff filename b out :
  (exists r, button_body filename b out = Ok r) <-> button_ok b = true.
Proof.
  unfold button_body, button_ok. apply for_each_ok_iff.
  intros state o. cbv zeta. unfold add_to_attr, add_attr.
  destruct (truthy (get state "title")); simpl; [|split; eauto].
  destruct (get b "id"); simpl;
    [|split; [intros [r E]; discriminate E | discriminate]].
  destruct (get state "key"); simpl; split; eauto; try discriminate.
  intros [r E]. discriminate E.
Qed.

Lemma combine_seq_nil A (l : list A) start :
  combine (List.seq start (length l)) l = [] -> l = [].
Proof. destruct l; [reflexivity | discriminate]. Qed.

Lemma segmented_control_ok_iff filename e out :
  (exists r, segmented_control_body filename e out = Ok r) <->
  segmented_control_ok e = true.
Proof.
  unfold segmented_control_body, segmented_control_ok.
  destruct (find e "segments") as [s|];
    [|split; [intros [r E]; discriminate E | discriminate]].
  unfold add_to_attr. destruct (get e "id") as [i|]; simpl.
  - rewrite (for_each_ok_iff _ (fun _ => true)).
    + destruct (children_of s); split; try reflexivity.
      all: intros _; apply forallb_forall; reflexivity.
    + intros [index segment] o. simpl. split; eauto.
  - destruct (children_of s) as [|c cs]; simpl.
    + split; eauto.
    + split; [intros [r E]; discriminate E | discriminate].
Qed.

Lemma text_view_ok_iff filename e out :
  (exists r, text_view_body filename e out = Ok r) <-> text_view_ok e = true.
Proof.
  unfold text_view_body, text_view_ok.
  destruct (find e "string") as [s|];
    [|split; [intros [r E]; discriminate E | discriminate]].
  unfold add_to_attr.
  destruct (truthy (text_of s)); simpl; [|split; eauto].
  destruct (get e "id"); simpl; split; eauto; try discriminate.
  intros [r E]. discriminate E.
Qed.

Lemma nth_combine_seq A (l : list A) : forall k start c,
  nth_error l k = Some c ->
  In (start + k, c) (combine (List.seq start (length l)) l).
Proof.
  induction l as [|a l IH]; intros [|k] start c E; simpl in E;
    try discriminate E.
  - inversion E; subst. left. now rewrite Nat.add_0_r.
  - right. simpl. replace (start + S k) with (S start + k) by lia.
    now apply IH.
Qed.

End IbFacts.

Import IbFacts.

(** X18: [find_strings_in_ib_file] only appends.  When it returns, the
    items it was given are the beginning of the result, in their order;
    what follows them is what the function gives from no items at all,
    and each of these new items names the file it was called with. *)
Theorem X18_ib_items_are_appended node filename out res :
  find_strings_in_ib_file node filename out = Ok res ->
  exists new,
    find_strings_in_ib_file node filename [] = Ok new /\
    res = out ++ new /\
    Forall (fun it => item_file it = filename) new.
Proof.
  intro E. rewrite find_strings_steps in E.
  destruct (run_steps_parts _ (ib_steps_append node filename) _ _ E)
    as [parts [F ->]].
  pose proof (run_steps_of_parts _ (ib_steps_append node filename)
                                 parts [] F) as E0.
  simpl in E0. exists (concat parts). rewrite find_strings_steps.
  repeat split; [assumption|].
  exact (run_steps_files _ _ (ib_steps_files node filename) [] _ E0
                         (Forall_nil _)).
Qed.

Lemma X18_ib_items_are_appended_witness :
  let node := Element (str "view") [] None
                [Element (str "label")
                   [(str "id", str "a1"); (str "text", str "Hello")]
                   None []] in
  let old := mkItem (str "k") None (str "other.xib") in
  exists new,
    find_strings_in_ib_file node (str "Main.xib") [] = Ok new /\
    [old; mkItem (str "a1.text") (Some (str "Hello")) (str "Main.xib")]
    = [old] ++ new /\
    Forall (fun it => item_file it = str "Main.xib") new.
Proof.
  intros node old.
  apply (X18_ib_items_are_appended node (str "Main.xib") [old]).
  reflexivity.
Defined.

(** X19: the titles of the bar button items are listed twice.  A
    barButtonItem with an id and a title that is not empty has its item
    (key: the id followed by .title, value: the title) two times among
    the items the function appends, because its loop is in the function
    two times. *)
Theorem X19_bar_button_items_twice node filename out res e i t :
  find_strings_in_ib_file node filename out = Ok res ->
  In e (iter node "barButtonItem") ->
  get e "id" = Some i ->
  get e "title" = Some t ->
  t <> [] ->
  let item := mkItem (i ++ str ".title") (Some t) filename in
  exists l1 l2 l3, res = out ++ l1 ++ item :: l2 ++ item :: l3.
Proof.
  intros E I Hi Ht Nt item. rewrite find_strings_steps in E.
  destruct (run_steps_parts _ (ib_steps_append node filename) _ _ E)
    as [parts [F ->]].
  unfold ib_steps in F.
  repeat match goal with
         | F : Forall2 _ (_ :: _) _ |- _ => inversion F; subst; clear F
         | F : Forall2 _ [] _ |- _ => inversion F; subst; clear F
         end.
  match goal with
  | A : for_each (iter node "barButtonItem") _ [] = Ok ?p,
    B : for_each (iter node "barButtonItem") _ [] = Ok ?q |- _ =>
      assert (q = p) as -> by congruence;
      destruct (for_each_holds _ _ _ (appends_title filename)
                               p e [item] A I) as [a [b ->]]
  end.
  - unfold title_body, attr_item. rewrite Ht, Hi.
    destruct t; [contradiction Nt; reflexivity | reflexivity].
  - simpl concat. rewrite app_nil_r.
    match goal with
    | |- context [?p1 ++ ?p2 ++ ?p3 ++ ?p4 ++ ?p5 ++ ?p6 ++
                  (a ++ item :: b) ++ ?p8 ++ ?p9 ++ a ++ item :: b] =>
        exists (p1 ++ p2 ++ p3 ++ p4 ++ p5 ++ p6 ++ a),
               (b ++ p8 ++ p9 ++ a), b
    end.
    simpl. repeat rewrite <- app_assoc. simpl.
    repeat rewrite <- app_assoc. reflexivity.
Qed.

Lemma X19_bar_button_items_twice_witness :
  let node := Element (str "toolbar") [] None
                [Element (str "barButtonItem")
                   [(str "id", str "b7"); (str "title", str "Done")]
                   None []] in
  let item := mkItem (str "b7.title") (Some (str "Done")) (str "Main.xib") in
  exists l1 l2 l3, [item; item] = [] ++ l1 ++ item :: l2 ++ item :: l3.
Proof.
  intros node item.
  apply (X19_bar_button_items_twice node (str "Main.xib") [] [item; item]
           (Element (str "barButtonItem")
              [(str "id", str "b7"); (str "title", str "Done")] None [])
           (str "b7") (str "Done")).
  - reflexivity.
  - left. reflexivity.
  - reflexivity.
  - reflexivity.
  - discriminate.
Defined.

(** X20: when [find_strings_in_ib_file] raises.  It returns exactly on
    the trees in which: a button has an id and its state a key wherever
    the state has a title; a label, text field, search bar, bar button
    item, tab bar item or navigation item with one of its strings has
    an id; a segmented control has a segments child, and an id when
    there is a segment; a text view has a string child, and an id when
    that child has a text.  The file name and the items so far have no
    part in it. *)
Theorem X20_ib_returns_iff node filename out :
  (exists res, find_strings_in_ib_file node filename out = Ok res) <->
  ib_ok node = true.
Proof.
  rewrite find_strings_steps.
  rewrite (run_steps_ok_iff (ib_steps node filename)
             [forallb button_ok (iter node "button");
              forallb (attrs_ok ["text"%string]) (iter node "label");
              forallb (attrs_ok ["text"%string; "placeholder"%string])
                      (iter node "textField");
              forallb segmented_control_ok (iter node "segmentedControl");
              forallb text_view_ok (iter node "textView");
              forallb (attrs_ok ["text"%string; "placeholder"%string;
                                 "prompt"%string])
                      (iter node "searchBar");
              forallb (attrs_ok ["title"%string]) (iter node "barButtonItem");
              forallb (attrs_ok ["title"%string]) (iter node "tabBarItem");
              forallb (attrs_ok ["title"%string])
                      (iter node "navigationItem");
              forallb (attrs_ok ["title"%string])
                      (iter node "barButtonItem")]).
  - unfold ib_ok. simpl. rewrite !andb_true_iff. tauto.
  - unfold ib_steps.
    repeat apply Forall2_cons; try apply Forall2_nil;
      intro o; apply for_each_ok_iff; intros x o'.
    + apply button_ok_iff.
    + apply ok1.
    + apply text_field_ok_iff.
    + apply segmented_control_ok_iff.
    + apply text_view_ok_iff.
    + apply search_bar_ok_iff.
    + apply ok1.
    + apply ok1.
    + apply ok1.
    + apply ok1.
Qed.

(** X21: the item for the placeholder of a text field carries the text
    of the field as its value, not the placeholder: for a textField
    with an id and a placeholder that is not empty, the result holds
    the item with the key id.placeholder whose value is the text
    attribute, [None] when the field has no text. *)
Theorem X21_text_field_placeholder_has_the_text node filename out res e i :
  find_strings_in_ib_file node filename out = Ok res ->
  In e (iter node "textField") ->
  get e "id" = Some i ->
  truthy (get e "placeholder") = true ->
  In (mkItem (i ++ str ".placeholder") (get e "text") filename) res.
Proof.
  intros E I Hi Hp.
  destruct (ib_step_in node filename out res
              (for_each (iter node "textField") (text_field_body filename))
              E) as [p [Ep Hin]].
  { unfold ib_steps. simpl. auto. }
  apply Hin.
  apply (for_each_in _ _ _ p e
           (match truthy (get e "text") with
            | true => [mkItem (i ++ str ".text") (get e "text") filename]
            | false => []
            end ++
            [mkItem (i ++ str ".placeholder") (get e "text") filename])
           _ (appends_text_field filename) Ep I).
  - unfold text_field_body, attr_item. cbv zeta. rewrite Hi, Hp.
    destruct (truthy (get e "text")); reflexivity.
  - apply in_or_app. right. left. reflexivity.
Qed.

Lemma X21_text_field_placeholder_has_the_text_witness :
  let field := Element (str "textField")
                 [(str "id", str "f2"); (str "placeholder", str "Name")]
                 None [] in
  In (mkItem (str "f2.placeholder") None (str "Main.xib"))
     [mkItem (str "f2.placeholder") None (str "Main.xib")].
Proof.
  intro field.
  apply (X21_text_field_placeholder_has_the_text
           (Element (str "view") [] None [field]) (str "Main.xib") []
           [mkItem (str "f2.placeholder") None (str "Main.xib")]
           field (str "f2")).
  - reflexivity.
  - left. reflexivity.
  - reflexivity.
  - reflexivity.
Defined.

(** X22: every segment of a segmented control gives an item, with or
    without a title.  For a segmentedControl with an id, the child
    number [k] (from 0) of its first segments child gives the item
    whose key is the id followed by .segmentTitles[k] and whose value
    is the title attribute of that child, [None] when it has none. *)
Theorem X22_every_segment_gives_an_item
        node filename out res e i segments k segment :
  find_strings_in_ib_file node filename out = Ok res ->
  In e (iter node "segmentedControl") ->
  get e "id" = Some i ->
  find e "segments" = Some segments ->
  nth_error (children_of segments) k = Some segment ->
  In (mkItem (i ++ str ".segmentTitles[" ++ repr_nat k ++ str "]")
             (get segment "title") filename) res.
Proof.
  intros E I Hi Hs Hk.
  destruct (ib_step_in node filename out res
              (for_each (iter node "segmentedControl")
                        (segmented_control_body filename))
              E) as [p [Ep Hin]].
  { unfold ib_steps. simpl. auto 6. }
  apply Hin.
  assert (exists items, segmented_control_body filename e [] = Ok items)
    as [items Ei].
  { apply segmented_control_ok_iff. unfold segmented_control_ok.
    rewrite Hs, Hi. now destruct (children_of segments). }
  apply (for_each_in _ _ _ p e items _
           (appends_segmented_control filename) Ep I Ei).
  unfold segmented_control_body in Ei. rewrite Hs in Ei.
  eapply (for_each_in _ _ _ items (k, segment)
            [mkItem (i ++ str ".segmentTitles[" ++ repr_nat k ++ str "]")
                    (get segment "title") filename]);
    [ | exact Ei | exact (nth_combine_seq _ _ k 0 segment Hk)
      | | left; reflexivity ].
  - intros [index s] o. destruct (add_to_attr (get e "id") _); reflexivity.
  - cbv beta iota. rewrite Hi. cbn [add_to_attr bind app].
    now rewrite <- app_assoc.
Qed.

Lemma X22_every_segment_gives_an_item_witness :
  let control :=
    Element (str "segmentedControl") [(str "id", str "s3")] None
      [Element (str "segments") [] None
         [Element (str "segment") [(str "title", str "One")] None [];
          Element (str "segment") [] None []]] in
  In (mkItem (str "s3.segmentTitles[1]") None (str "Main.xib"))
     [mkItem (str "s3.segmentTitles[0]") (Some (str "One")) (str "Main.xib");
      mkItem (str "s3.segmentTitles[1]") None (str "Main.xib")].
Proof.
  intro control.
  apply (X22_every_segment_gives_an_item
           control (str "Main.xib") []
           [mkItem (str "s3.segmentTitles[0]") (Some (str "One"))
                   (str "Main.xib");
            mkItem (str "s3.segmentTitles[1]") None (str "Main.xib")]
           control (str "s3")
           (Element (str "segments") [] None
              [Element (str "segment") [(str "title", str "One")] None [];
               Element (str "segment") [] None []])
           1 (Element (str "segment") [] None [])).
  - reflexivity.
  - left. reflexivity.
  - reflexivity.
  - reflexivity.
  - reflexivity.
Defined.
